(** * Cursor-input subsystem: loader, registry, state store and ACK handler

    A shallow embedding of the Go sources

      - filebeat/input/v2 (error.go, registry.go)
      - filebeat/input/v2/compat/composed.go
      - filebeat/input/v2/input-cursor (store.go, input.go)

    Stateful code is written in explicit state-passing style; Go's
    [(value, error)] returns become pairs whose error component is an
    [option] ([None] is Go's [nil]). *)

From Stdlib Require Import ZArith String Ascii List Bool Lia.
From stdpp Require Import base option list strings gmap fin_maps.

Local Open Scope string_scope.

(* ===================================================================== *)
(** * Package v2: loader errors                                           *)
(* ===================================================================== *)

Module v2.

(** [diag.Context]: structured-logging metadata, a bag of key/value pairs. *)
Definition diag_Context := list (string * string).

(** Go [error] values, as far as this code base builds and inspects them.
    [ErrUnknown] is the package level sentinel
    [errors.New("unknown input type")]; [ErrorString] stands for every other
    leaf error ([errors.New], [fmt.Errorf] without wrapping); [LoaderError]
    is [*LoaderError], whose [Unwrap] method returns [Reason]. *)
#[warnings="-register-all"]
Inductive error : Type :=
| ErrUnknown : error
| ErrorString (msg : string) : error
| LoaderError (Diagnostics : option diag_Context) (Name : string)
              (Reason : option error) (Message : string) : error.


(** [sderr.Is(err, ErrUnknown)]: walk the [Unwrap] chain of [err] and report
    whether it reaches the sentinel.  The sentinel is compared by identity,
    so an [ErrorString] never matches, whatever its text. *)
Fixpoint Is_ErrUnknown (err : error) : bool :=
  match err with
  | ErrUnknown => true
  | ErrorString _ => false
  | LoaderError _ _ reason _ =>
      match reason with
      | Some cause => Is_ErrUnknown cause
      | None => false
      end
  end.

(** [func IsUnknownInputError(err error) bool { return sderr.Is(err, ErrUnknown) }];
    a [nil] error matches nothing. *)
Definition IsUnknownInputError (err : option error) : bool :=
  match err with
  | Some e => Is_ErrUnknown e
  | None => false
  end.

(** [failedInputName] *)
Definition failedInputName (err : option error) : string :=
  match err with
  | Some (LoaderError _ name _ _) => name
  | _ => ""
  end.

(** The [Error] method of [LoaderError], with [render] standing for [fmt]'s [%v] of the
    reason. *)
Definition LoaderError_Error (render : error -> string)
    (name : string) (reason : option error) (message : string) : string :=
  let buf :=
    if negb (String.eqb message "") then message
    else if negb (String.eqb name "") then "failed to load " ++ name
    else "" in
  let buf :=
    match reason with
    | Some r =>
        (if Nat.ltb 0 (String.length buf) then buf ++ ": " else buf) ++ render r
    | None => buf
    end in
  if Nat.eqb (String.length buf) 0 then "<loader error>" else buf.

(** ** Plugins and the registry tree (registry.go) *)

(** [feature.Stability] *)
Inductive Stability : Type := Undefined | Stable | Beta | Experimental.

(** [Plugin].  [Manager] is an interface value; only its identity matters
    here, so it is a handle, [None] being [nil]. *)
Record Plugin : Type := {
  Name : string;
  Stability_ : Stability;
  Deprecated : bool;
  Info : string;
  Doc : string;
  Manager : option nat
}.

(** Go's zero value [Plugin{}]. *)
Definition Plugin_zero : Plugin :=
  {| Name := ""; Stability_ := Undefined; Deprecated := false;
     Info := ""; Doc := ""; Manager := None |}.

(** [Registry]: [plugins map[string]Plugin] and [subs []*Registry].  A value
    of this type is the tree reachable from a registry pointer at the moment
    of a call; children are non-nil and the tree is finite (no registry is
    added, directly or indirectly, to itself). *)
#[warnings="-register-all"]
Inductive Registry : Type :=
  mkRegistry (plugins : gmap string Plugin) (subs : list Registry).

(** Induction over the tree, with the hypothesis for every child. *)
Section Registry_induction.

Variable P : Registry -> Prop.
Hypothesis node : forall ps ss, Forall P ss -> P (mkRegistry ps ss).

Fixpoint Registry_tree_ind (r : Registry) : P r :=
  match r with
  | mkRegistry ps ss =>
      node ps ss
        ((fix all (l : list Registry) : Forall P l :=
            match l with
            | [] => @List.Forall_nil _ P
            | sub :: rest =>
                @List.Forall_cons _ P sub rest (Registry_tree_ind sub) (all rest)
            end) ss)
  end.

End Registry_induction.

Definition plugins (r : Registry) : gmap string Plugin :=
  match r with mkRegistry ps _ => ps end.

Definition subs (r : Registry) : list Registry :=
  match r with mkRegistry _ ss => ss end.

(** [Addon] is implemented by [Plugin] and [Registry] only. *)
Inductive Addon : Type :=
| AddonPlugin (p : Plugin)
| AddonRegistry (c : Registry).

(** Modelled from the spec: the [addToRegistry] method of [Plugin]
    (plugin.go is not among the available sources).  Section 4.1: a Plugin
    is "appended to [plugins] under its name". *)
Definition Plugin_addToRegistry (p : Plugin) (parent : Registry) : Registry :=
  mkRegistry (<[Name p := p]> (plugins parent)) (subs parent).

(** [func (c *Registry) addToRegistry(parent *Registry)] *)
Definition Registry_addToRegistry (c : Registry) (parent : Registry) : Registry :=
  mkRegistry (plugins parent) (subs parent ++ [c])%list.

(** [Registry.Add] *)
Definition Add (r : Registry) (e : Addon) : Registry :=
  match e with
  | AddonPlugin p => Plugin_addToRegistry p r
  | AddonRegistry c => Registry_addToRegistry c r
  end.

(** [NewRegistry] *)
Definition NewRegistry (extensions : list Addon) : Registry :=
  fold_left Add extensions (mkRegistry ∅ []).

(** [Registry.find]: the direct plugins are looked up by map key, then the
    children are searched in slice order. *)
Fixpoint find (name : string) (r : Registry) : Plugin * bool :=
  match r with
  | mkRegistry ps ss =>
      match ps !! name with
      | Some p => (p, true)
      | None =>
          (fix find_subs (l : list Registry) : Plugin * bool :=
             match l with
             | [] => (Plugin_zero, false)
             | sub :: rest =>
                 let '(p, ok) := find name sub in
                 if ok then (p, ok) else find_subs rest
             end) ss
      end
  end.

(** [Registry.Find] *)
Definition Find (name : string) (c : Registry) : Plugin * option error :=
  let '(plugin, ok) := find name c in
  if negb ok
  then (plugin, Some (LoaderError None name (Some ErrUnknown) ""))
  else (plugin, None).

(** Go leaves the iteration order of [range] over a map unspecified, and it
    may change from one [range] statement to the next.  [MapOrder] is the
    choice made by the runtime: the enumeration used by the [range]
    statement executed at the registry node reached from the root by [path]
    (the child indices followed). *)
Definition MapOrder : Type := list nat -> gmap string Plugin -> list Plugin.

(** What the language guarantees about such an enumeration: every entry of
    the map is produced exactly once. *)
Definition map_range (order : MapOrder) : Prop :=
  forall path (m : gmap string Plugin), order path m ≡ₚ (map_to_list m).*2.

(** Two concrete runtimes. *)
Definition ascending : MapOrder := fun _ m => (map_to_list m).*2.
Definition descending : MapOrder := fun _ m => rev (map_to_list m).*2.

Section Each.

(** The callback is a closure: it reads and writes captured state [S]. *)
Context {S : Type}.
Variable order : MapOrder.
Variable fn : Plugin -> S -> bool * S.

(** [for _, p := range ... { if !fn(p) { return false } }] over an
    already chosen enumeration. *)
Fixpoint range_plugins (ps : list Plugin) (s : S) : bool * S :=
  match ps with
  | [] => (true, s)
  | p :: rest =>
      let '(cont, s1) := fn p s in
      if cont then range_plugins rest s1 else (false, s1)
  end.

(** [Registry.each] *)
Fixpoint each (path : list nat) (r : Registry) (s : S) : bool * S :=
  match r with
  | mkRegistry ps ss =>
      let '(cont, s1) := range_plugins (order path ps) s in
      if cont then
        (fix range_subs (i : nat) (l : list Registry) (s : S) : bool * S :=
           match l with
           | [] => (true, s)
           | sub :: rest =>
               let '(cont, s2) := each (path ++ [i]) sub s in
               if cont then range_subs (Datatypes.S i) rest s2 else (false, s2)
           end) 0%nat ss s1
      else (false, s1)
  end.

(** [Registry.Each]: the boolean of [each] is dropped. *)
Definition Each (r : Registry) (s : S) : S := snd (each [] r s).

End Each.

(** The order in which an exhaustive iteration meets the plugins. *)
Fixpoint traversal (order : MapOrder) (path : list nat) (r : Registry)
    : list Plugin :=
  match r with
  | mkRegistry ps ss =>
      order path ps ++
      (fix children (i : nat) (l : list Registry) : list Plugin :=
         match l with
         | [] => []
         | sub :: rest =>
             traversal order (path ++ [i]) sub ++ children (Datatypes.S i) rest
         end) 0%nat ss
  end%list.

(** Every plugin is filed under its own name, at every node.  [Add] keeps
    this, so it holds of every registry a program can build. *)
Fixpoint keyed_by_name (r : Registry) : Prop :=
  match r with
  | mkRegistry ps ss =>
      (forall k p, ps !! k = Some p -> Name p = k) /\
      (fix all (l : list Registry) : Prop :=
         match l with
         | [] => True
         | sub :: rest => keyed_by_name sub /\ all rest
         end) ss
  end.




(** The loops over [subs], by name. *)
Definition find_subs (name : string) : list Registry -> Plugin * bool :=
  fix find_subs (l : list Registry) : Plugin * bool :=
    match l with
    | [] => (Plugin_zero, false)
    | sub :: rest =>
        let '(p, ok) := find name sub in
        if ok then (p, ok) else find_subs rest
    end.

Definition each_subs {S : Type} (order : MapOrder) (fn : Plugin -> S -> bool * S)
    (path : list nat) : nat -> list Registry -> S -> bool * S :=
  fix range_subs (i : nat) (l : list Registry) (s : S) : bool * S :=
    match l with
    | [] => (true, s)
    | sub :: rest =>
        let '(cont, s2) := each order fn (path ++ [i]) sub s in
        if cont then range_subs (Datatypes.S i) rest s2 else (false, s2)
    end.

Definition traversal_subs (order : MapOrder) (path : list nat)
    : nat -> list Registry -> list Plugin :=
  fix children (i : nat) (l : list Registry) : list Plugin :=
    match l with
    | [] => []
    | sub :: rest =>
        (traversal order (path ++ [i]) sub ++ children (Datatypes.S i) rest)%list
    end.


(** [p] is a plugin of the tree: a direct plugin of some node. *)
Fixpoint reachable (p : Plugin) (r : Registry) : Prop :=
  match r with
  | mkRegistry ps ss =>
      (exists k, ps !! k = Some p) \/
      (fix any (l : list Registry) : Prop :=
         match l with
         | [] => False
         | sub :: rest => reachable p sub \/ any rest
         end) ss
  end.


(** The first plugin of a sequence that goes by [name]. *)
Definition first_named (name : string) (l : list Plugin) : option Plugin :=
  List.find (fun p => String.eqb (Name p) name) l.

(** Sample registries. *)
Definition plugin (name : string) : Plugin :=
  {| Name := name; Stability_ := Stable; Deprecated := false;
     Info := ""; Doc := ""; Manager := None |}.

Definition two_plugins : Registry :=
  NewRegistry [AddonPlugin (plugin "log"); AddonPlugin (plugin "grpc")].

Definition nested : Registry :=
  NewRegistry [AddonRegistry (NewRegistry [AddonPlugin (plugin "journald")]);
               AddonPlugin (plugin "log");
               AddonRegistry (NewRegistry [AddonPlugin (plugin "grpc")])].

(** ** Further definitions for the loader errors and the registry *)

(** The [Error()] text of an error, which is also what [fmt] prints for
    [%v]: the sentinel's text is the one given to [errors.New]. *)
Fixpoint error_Error (e : error) : string :=
  match e with
  | ErrUnknown => "unknown input type"
  | ErrorString msg => msg
  | LoaderError _ name reason message =>
      LoaderError_Error error_Error name reason message
  end.


(** Some node of the tree has a direct plugin under the key [name]. *)
Fixpoint filed (name : string) (r : Registry) : Prop :=
  match r with
  | mkRegistry ps ss =>
      is_Some (ps !! name) \/
      (fix any (l : list Registry) : Prop :=
         match l with
         | [] => False
         | sub :: rest => filed name sub \/ any rest
         end) ss
  end.

(** [Registry.Names] up to its last step: the [common.StringSet] [uniq]
    as the iteration leaves it, before [uniq.ToSlice()] (which belongs to
    another package) turns it into a slice. *)
Definition Names_uniq (order : MapOrder) (r : Registry) : gset string :=
  Each order (fun p uniq => (true, {[Name p]} ∪ uniq)) r ∅.

End v2.

(* ===================================================================== *)
(** * Package compat: the composed runner factory                         *)
(* ===================================================================== *)

Module compat.
Import v2.

Section Composed.

(** Everything a factory can touch (pipelines it connects to, inputs it
    instantiates, ...) is the world [W]; the remaining types are opaque
    to [composeFactory]. *)
Context {W Config PipelineConnector Meta Runner : Type}.

(** [cfgfile.RunnerFactory].  [Create] returns Go's pair
    [(Runner, error)]; either component may be [nil]. *)
Record RunnerFactory : Type := {
  CheckConfig : Config -> W -> option error * W;
  Create : PipelineConnector -> Config -> Meta -> W ->
           (option Runner * option error) * W
}.

(** [composeFactory.CheckConfig] *)
Definition composeFactory_CheckConfig (factory fallback : RunnerFactory)
    (cfg : Config) (w : W) : option error * W :=
  let '(err, w1) := CheckConfig factory cfg w in
  match err with
  | None => (None, w1)
  | Some _ => CheckConfig fallback cfg w1
  end.

(** [composeFactory.Create] *)
Definition composeFactory_Create (factory fallback : RunnerFactory)
    (p : PipelineConnector) (config : Config) (meta : Meta) (w : W)
    : (option Runner * option error) * W :=
  let '((runner, err1), w1) := Create factory p config meta w in
  match err1 with
  | None => ((runner, None), w1)
  | Some e1 =>
      let '((runner, err2), w2) := Create fallback p config meta w1 in
      match err2 with
      | None => ((runner, None), w2)
      | Some e2 =>
          (* return err2 only if err1 indicates that the input type is
             not known to f.factory *)
          if Is_ErrUnknown e1 then ((None, Some e2), w2)
          else ((None, Some e1), w2)
      end
  end.

(** [Combine] *)
Definition Combine (factory fallback : RunnerFactory) : RunnerFactory :=
  {| CheckConfig := composeFactory_CheckConfig factory fallback;
     Create := composeFactory_Create factory fallback |}.

End Composed.

Arguments RunnerFactory : clear implicits.

(** The rule as the specification words it, for one call: a primary
    failure that is not [ErrUnknown] is what the composed factory
    returns, whatever the fallback does. *)
Definition Create_keeps_primary_error {W Config PipelineConnector Meta Runner}
    (factory fallback : RunnerFactory W Config PipelineConnector Meta Runner)
    (p : PipelineConnector) (config : Config) (meta : Meta) (w : W) : Prop :=
  forall e1,
    snd (fst (Create factory p config meta w)) = Some e1 ->
    Is_ErrUnknown e1 = false ->
    fst (Create (Combine factory fallback) p config meta w) = (None, Some e1).


(** ** Test doubles

    Factories over a world that is the log of calls made so far, so that
    "was the fallback consulted" is observable. *)

Inductive call : Type :=
| CallCheckConfig (who : string)
| CallCreate (who : string).

Definition stub (who : string) (check : option error)
    (create : option string * option error)
    : RunnerFactory (list call) unit unit unit string :=
  {| CheckConfig := fun _ log => (check, (log ++ [CallCheckConfig who])%list);
     Create := fun _ _ _ log => (create, (log ++ [CallCreate who])%list) |}.

(** A primary that knows the input type but rejects its configuration. *)
Definition rejecting : RunnerFactory (list call) unit unit unit string :=
  stub "primary" (Some (ErrorString "invalid config"))
       (None, Some (ErrorString "invalid config")).

(** A primary that does not know the input type. *)
Definition unknowing : RunnerFactory (list call) unit unit unit string :=
  stub "primary" (Some (LoaderError None "legacy" (Some ErrUnknown) ""))
       (None, Some (LoaderError None "legacy" (Some ErrUnknown) "")).

(** A fallback that accepts every configuration. *)
Definition accepting : RunnerFactory (list call) unit unit unit string :=
  stub "fallback" None (Some "legacy runner", None).

(** A fallback that fails too. *)
Definition failing : RunnerFactory (list call) unit unit unit string :=
  stub "fallback" (Some (ErrorString "legacy failure"))
       (None, Some (ErrorString "legacy failure")).

End compat.

(* ===================================================================== *)
(** * Package cursor: state store, source identifiers, ACK handler        *)
(* ===================================================================== *)

Module cursor.
Import v2.

(** ** Library types *)

(** [fmt.Sprintf], for the verbs this package uses on string operands:
    [%v] and [%s] print the operand as it is, [%%] prints a percent sign.
    A verb without operand prints [%!v(MISSING)], operands left over are
    reported in a trailing [%!(EXTRA ...)], as [fmt] does. *)
Fixpoint Sprintf_extra (args : list string) : string :=
  match args with
  | [] => ""
  | [a] => "string=" ++ a
  | a :: rest => "string=" ++ a ++ ", " ++ Sprintf_extra rest
  end.

Fixpoint Sprintf (format : string) (args : list string) : string :=
  match format with
  | EmptyString =>
      match args with
      | [] => ""
      | _ => "%!(EXTRA " ++ Sprintf_extra args ++ ")"
      end
  | String c rest =>
      if Ascii.eqb c "%" then
        match rest with
        | EmptyString => "%!(NOVERB)"
        | String verb rest' =>
            if Ascii.eqb verb "%" then String "%" (Sprintf rest' args)
            else if Ascii.eqb verb "v" || Ascii.eqb verb "s" then
              match args with
              | a :: args' => a ++ Sprintf rest' args'
              | [] => String "%" (String "!" (String verb "(MISSING)"))
                        ++ Sprintf rest' []
              end
            else
              match args with
              | a :: args' =>
                  String "%" (String "!" (String verb ("(string=" ++ a ++ ")")))
                    ++ Sprintf rest' args'
              | [] => String "%" (String "!" (String verb "(MISSING)"))
                        ++ Sprintf rest' []
              end
        end
      else String c (Sprintf rest args)
  end.

(** [time.Time] as seconds and nanoseconds since the zero instant
    (January 1, year 1, 00:00:00 UTC), and [time.Duration] in nanoseconds. *)
Record Time : Type := { sec : Z; nsec : Z }.
Definition Duration : Type := Z.

Definition Time_zero : Time := {| sec := 0; nsec := 0 |}.

(** [Time.IsZero] *)
Definition IsZero (t : Time) : bool := (sec t =? 0)%Z && (nsec t =? 0)%Z.

(** Values held in an [interface{}]: what inputs store as cursors.  A nil
    interface is [None] of [option value]. *)
#[warnings="-register-all"]
Inductive value : Type :=
| VInt (z : Z)
| VString (s : string)
| VMap (fields : list (string * value)).

(** [atomic.Uint64]: [Inc] and [Dec] wrap around at [2^64]. *)
Definition Uint64_Inc (x : Z) : Z := ((x + 1) mod 2 ^ 64)%Z.
Definition Uint64_Dec (x : Z) : Z := ((x - 1) mod 2 ^ 64)%Z.

(** ** The registry document and its partial update shapes (store.go) *)

Record stateInternal : Type := { TTL : Duration; Updated : Time }.

Record state : Type := { Internal : stateInternal; Cursor : option value }.

(** Go's zero value [state{}]. *)
Definition state_zero : state :=
  {| Internal := {| TTL := 0%Z; Updated := Time_zero |}; Cursor := None |}.

(** [registryStateUpdateCursor], [registryStateUpdateInternal] and
    [registryStateInsert]. *)
Inductive registryUpdate : Type :=
| registryStateUpdateCursor (Internal_Updated : Time) (Cursor_ : option value)
| registryStateUpdateInternal (Internal_ : stateInternal)
| registryStateInsert (Internal_TTL : Duration).

(** [resource].  [pending] is an [atomic.Uint64]; [lock] is a
    [unison.Mutex], of which only "held or free" matters here. *)
Record resource : Type := {
  pending : Z;
  lock : bool;
  stored : bool;
  internalInSync : bool;
  key : string;
  state_ : state
}.

Definition set_pending (n : Z) (r : resource) : resource :=
  {| pending := n; lock := lock r; stored := stored r;
     internalInSync := internalInSync r; key := key r; state_ := state_ r |}.

Definition set_stored (b : bool) (r : resource) : resource :=
  {| pending := pending r; lock := lock r; stored := b;
     internalInSync := internalInSync r; key := key r; state_ := state_ r |}.

Definition set_internalInSync (b : bool) (r : resource) : resource :=
  {| pending := pending r; lock := lock r; stored := stored r;
     internalInSync := b; key := key r; state_ := state_ r |}.

Definition set_Updated (t : Time) (r : resource) : resource :=
  {| pending := pending r; lock := lock r; stored := stored r;
     internalInSync := internalInSync r; key := key r;
     state_ := {| Internal := {| TTL := TTL (Internal (state_ r)); Updated := t |};
                  Cursor := Cursor (state_ r) |} |}.

(** [resource.Retain], [resource.Release], [resource.Finished], [resource.IsNew] *)
Definition Retain (e : resource) : resource := set_pending (Uint64_Inc (pending e)) e.
Definition Release (e : resource) : resource := set_pending (Uint64_Dec (pending e)) e.
Definition Finished (e : resource) : bool := (pending e =? 0)%Z.
Definition IsNew (e : resource) : bool :=
  match Cursor (state_ e) with None => true | Some _ => false end.

(** ** The persistent store *)

(** Modelled from the spec: the [statestore] package ([Store.Update] and
    the transaction's [Update]) is not among the available sources.
    Section 4.2: [Update(fn(tx))] is an atomic read-write transaction,
    [tx.Update(key, partial)] merges a partial record into the record of
    [key], and [Update] returns once the transaction is on stable storage.

    The store is represented by its history: one entry per transaction,
    with the writes issued inside it, in order, and how it ended.  Whether
    a step fails is up to the environment: [faults] lists the outcomes of
    the coming fallible steps (a write inside a transaction, a commit);
    when the list is used up every step succeeds. *)
Inductive txOp : Type :=
| TxUpdate (k : string) (u : registryUpdate).

(** One transaction of the history: its writes and the error [Update]
    returned for it ([None]: committed). *)
Record txRecord : Type := {
  ops : list txOp;
  outcome : option error
}.

Record Store : Type := {
  history : list txRecord;
  faults : list (option error)
}.

(** A transaction in progress: writes issued so far, outcomes to come. *)
Record Tx : Type := {
  issued : list txOp;
  pending_faults : list (option error)
}.

(** The outcome of the next fallible step. *)
Definition next_fault (fs : list (option error)) : option error * list (option error) :=
  match fs with
  | [] => (None, [])
  | f :: rest => (f, rest)
  end.

(** Modelled from the spec: [tx.Update(key, value)] of [statestore.Tx]
    (section 4.2), a write of a partial record that the store may refuse. *)
Definition Tx_Update (k : string) (u : registryUpdate) (tx : Tx) : option error * Tx :=
  let '(err, rest) := next_fault (pending_faults tx) in
  (err, {| issued := (issued tx ++ [TxUpdate k u])%list; pending_faults := rest |}).

(** Modelled from the spec: [Update(fn)] of [statestore.Store] (section
    4.2, "atomic read-write").  [fn] runs in a fresh transaction; when it
    returns an error the transaction is abandoned and the error is
    returned, otherwise the transaction is committed, which can fail as
    well. *)
Definition Store_Update (fn : Tx -> option error * Tx) (st : Store) : option error * Store :=
  let '(err, tx) := fn {| issued := []; pending_faults := faults st |} in
  match err with
  | Some e =>
      (Some e, {| history := (history st ++ [{| ops := issued tx; outcome := Some e |}])%list;
                  faults := pending_faults tx |})
  | None =>
      let '(cerr, rest) := next_fault (pending_faults tx) in
      (cerr, {| history := (history st ++ [{| ops := issued tx; outcome := cerr |}])%list;
                faults := rest |})
  end.

(** ** The in-memory table and the store (store.go) *)

(** A [*resource] is an address in the heap of resources; Go's [nil] is
    [None] of [option loc]. *)
Abbreviation loc := nat (only parsing).

(** [states]: [table map[string]*resource].  Its mutex makes [Find] one
    atomic step, which is how [Find] is written below. *)
Record states : Type := { table : gmap string loc }.

(** The world of the [store]: the resources allocated so far, the
    [ephemeralStore], the [persistentStore], the reading of [time.Now()]
    and the lines written to the error log. *)
Record world : Type := {
  heap : list resource;
  ephemeralStore : states;
  persistentStore : Store;
  now : Time;
  errlog : list string
}.

Definition set_heap (h : list resource) (w : world) : world :=
  {| heap := h; ephemeralStore := ephemeralStore w;
     persistentStore := persistentStore w; now := now w; errlog := errlog w |}.

Definition set_ephemeralStore (s : states) (w : world) : world :=
  {| heap := heap w; ephemeralStore := s;
     persistentStore := persistentStore w; now := now w; errlog := errlog w |}.

Definition set_persistentStore (p : Store) (w : world) : world :=
  {| heap := heap w; ephemeralStore := ephemeralStore w;
     persistentStore := p; now := now w; errlog := errlog w |}.

(** [log.Errorf(format, args...)] *)
Definition Errorf (format : string) (args : list string) (w : world) : world :=
  {| heap := heap w; ephemeralStore := ephemeralStore w;
     persistentStore := persistentStore w; now := now w;
     errlog := (errlog w ++ [Sprintf format args])%list |}.

(** [states.Find].  The result is the returned pointer, the table and the
    heap after the call.  Table entries are never nil ([Find] and
    [readStates] store fresh allocations only), so "present" and
    "non-nil" coincide; [resource.Retain()] mutates the resource the table
    entry points to, in place. *)
Definition states_Find (k : string) (create : bool) (s : states) (h : list resource)
    : option loc * states * list resource :=
  match table s !! k with
  | Some l =>
      (Some l, s, alter Retain l h)
  | None =>
      if negb create then (None, s, h)
      else
        (* resource is owned by table(session) and input that uses the resource. *)
        let fresh :=
          {| pending := 0%Z; lock := false; stored := false;
             internalInSync := false; key := k; state_ := state_zero |} in
        let l := length h in
        let h := (h ++ [fresh])%list in
        let s := {| table := <[k := l]> (table s) |} in
        (Some l, s, alter Retain l h)
  end.

(** [store.Find] *)
Definition store_Find (k : string) (create : bool) (w : world) : option loc * world :=
  let '(res, s, h) := states_Find k create (ephemeralStore w) (heap w) in
  (res, set_ephemeralStore s (set_heap h w)).

(** [store.UpdateInternal].  Reading through the pointer needs a live
    address; [None] is the nil dereference panic. *)
Definition store_UpdateInternal (res : loc) (w : world) : option world :=
  r ← heap w !! res;
  let data := Internal (state_ r) in
  let data :=
    if IsZero (Updated data) then {| TTL := TTL data; Updated := now w |}
    else data in
  let '(err, ps) :=
    Store_Update (Tx_Update (key r) (registryStateUpdateInternal data))
                 (persistentStore w) in
  let w := set_persistentStore ps w in
  match err with
  | Some _ =>
      let w := Errorf "Failed to update resource management fields for '%v'" [key r] w in
      Some (set_heap (alter (set_internalInSync false) res (heap w)) w)
  | None =>
      let h := alter (set_stored true) res (heap w) in
      Some (set_heap (alter (set_internalInSync true) res h) w)
  end.

(** The transaction body of [store.UpdateCursor]. *)
Definition UpdateCursor_tx (r : resource) (updateCommand : registryUpdate)
    (tx : Tx) : option error * Tx :=
  if negb (internalInSync r) then
    let internalUpdCommand := registryStateUpdateInternal (Internal (state_ r)) in
    let '(err, tx1) := Tx_Update (key r) internalUpdCommand tx in
    match err with
    | Some e => (Some e, tx1)
    | None => Tx_Update (key r) updateCommand tx1
    end
  else Tx_Update (key r) updateCommand tx.

(** [store.UpdateCursor] *)
Definition store_UpdateCursor (res : loc) (timestamp : Time)
    (updates : option value) (w : world) : option world :=
  r ← heap w !! res;
  let updateCommand := registryStateUpdateCursor timestamp updates in
  let '(err, ps) := Store_Update (UpdateCursor_tx r updateCommand) (persistentStore w) in
  let w := set_persistentStore ps w in
  match err with
  | Some _ =>
      Some (Errorf "Failed to update state in the registry for '%v'" [key r] w)
  | None =>
      let h := alter (set_internalInSync true) res (heap w) in
      Some (set_heap (alter (set_stored true) res h) w)
  end.

(** ** Source identifiers (input.go) *)

(** Of [InputManager] only the [Type] field is used here; a [Source] is
    anything with a [Name()]. *)
Record InputManager : Type := { Type_ : string }.
Record Source : Type := { Source_Name : string }.

Record managedInput : Type := {
  manager : InputManager;
  userID : string;
  sources : list Source;
  cleanTimeout : Duration
}.

(** [managedInput.createSourceID] *)
Definition createSourceID (inp : managedInput) (s : Source) : string :=
  if negb (String.eqb (userID inp) "")
  then Sprintf "%v::%v::%v" [Type_ (manager inp); userID inp; Source_Name s]
  else Sprintf "%v::%v" [Type_ (manager inp); Source_Name s].

(** ** The ACK handler (input.go) *)

(** [updateOp]: the resource it belongs to, the time of the event and the
    cursor update carried ("an update operation carrying
    [{store, resource, ts, cursorDelta}]"; there is one store per world). *)
Record updateOp : Type := {
  op_resource : loc;
  timestamp : Time;
  delta : option value
}.

(** An element of [private []interface{}]: nil, a [*updateOp], or a value
    of some other type put there by another party. *)
Inductive private_entry : Type :=
| PNil
| PUpdateOp (op : updateOp)
| PForeign (what : string).

Section ACKHandler.

Context {W : Type}.

(** The [Execute] method of [updateOp], see [updateOp_Execute] below. *)
Variable Execute : updateOp -> Z -> W -> option W.

(** The loop [for i := 0; i < len(private); i++], with [n uint] and
    [last int]; [rest] is [private[i:]]. *)
Fixpoint scan (i : nat) (rest : list private_entry) (n : Z) (last : nat)
    : Z * nat :=
  match rest with
  | [] => (n, last)
  | current :: rest' =>
      match current with
      | PNil => scan (S i) rest' n last
      | PForeign _ => scan (S i) rest' n last
      | PUpdateOp _ => scan (S i) rest' ((n + 1) mod 2 ^ 64)%Z i
      end
  end.

(** The function given to [acker.EventPrivateReporter] by
    [newInputACKHandler].  [None] is a panic (index out of range or a
    failed type assertion on [private[last]], or one raised
    by [Execute]). *)
Definition inputACKHandler (acked : Z) (private : list private_entry) (w : W)
    : option W :=
  let '(n, last) := scan 0 private 0%Z 0%nat in
  if (n =? 0)%Z then Some w
  else
    match private !! last with
    | Some (PUpdateOp op) => Execute op n w
    | _ => None
    end.

End ACKHandler.

(** Modelled from the spec: the [Execute] method of [updateOp] (publish.go
    is not among the available sources).  Section 4.6: "Executing an update
    operation means: (a) update the resource's internal [updated]
    timestamp, (b) call [UpdateCursor] on the store with the carried cursor
    delta, (c) [Release()] every update operation's retain in the batch". *)
Definition updateOp_Execute (op : updateOp) (n : Z) (w : world) : option world :=
  let w := set_heap (alter (set_Updated (timestamp op)) (op_resource op) (heap w)) w in
  w ← store_UpdateCursor (op_resource op) (timestamp op) (delta op) w;
  Some (set_heap (alter (Nat.iter (Z.to_nat n) Release) (op_resource op) (heap w)) w).

(** ** Sample data *)

(** A resource found in the registry at startup and in use since. *)
Definition sample_resource : resource :=
  {| pending := 2%Z; lock := true; stored := true; internalInSync := true;
     key := "log::f1";
     state_ := {| Internal := {| TTL := 1800%Z;
                                 Updated := {| sec := 63000000000%Z; nsec := 0%Z |} |};
                  Cursor := Some (VMap [("offset", VInt 20)]) |} |}.

(** A resource as [Find] has just created it. *)
Definition fresh_resource : resource :=
  {| pending := 1%Z; lock := true; stored := false; internalInSync := false;
     key := "log::f2"; state_ := state_zero |}.

Definition sample_states : states := {| table := {["log::f1" := 0%nat]} |}.

Definition sample_world (fs : list (option error)) : world :=
  {| heap := [sample_resource; fresh_resource];
     ephemeralStore := {| table := {["log::f1" := 0%nat; "log::f2" := 1%nat]} |};
     persistentStore := {| history := []; faults := fs |};
     now := {| sec := 63900000000%Z; nsec := 5%Z |};
     errlog := [] |}.

Definition disk_full : error := ErrorString "no space left on device".

(** Scenario S1 seen from the ACK handler: three events of source [f1]
    acknowledged in one batch, among entries of other clients. *)
Definition op_at (offset : Z) : updateOp :=
  {| op_resource := 0%nat;
     timestamp := {| sec := 63900000000%Z; nsec := offset |};
     delta := Some (VMap [("offset", VInt offset)]) |}.

Definition sample_batch : list private_entry :=
  [PForeign "metrics"; PUpdateOp (op_at 10); PNil; PUpdateOp (op_at 20);
   PUpdateOp (op_at 30); PForeign "metrics"].

(** The update operations of a batch, in order, and the cursor writes a
    store has been asked for. *)
Definition update_ops (private : list private_entry) : list updateOp :=
  omap (fun e => match e with PUpdateOp op => Some op | _ => None end) private.

Definition is_cursor_write (o : txOp) : bool :=
  match o with
  | TxUpdate _ (registryStateUpdateCursor _ _) => true
  | _ => false
  end.

Definition cursor_writes (st : Store) : list txOp :=
  List.filter is_cursor_write (concat (map ops (history st))).

(** ** Further definitions for the store *)

(** [strings.HasPrefix(s, prefix)] *)
Definition HasPrefix (s prefix : string) : bool := String.prefix prefix s.

(** Every table entry points to a live resource that carries the key it
    is filed under. *)
Definition table_ok (s : states) (h : list resource) : Prop :=
  forall k l, table s !! k = Some l -> exists r, h !! l = Some r /\ key r = k.




Section ReadStates.

(** [fmt]'s [%+v] of the decoding error, which depends on the error's
    dynamic type. *)
Variable verbose : error -> string.



End ReadStates.


(** An [Execute] that only counts what it is asked to acknowledge. *)
Definition counting_Execute (op : updateOp) (n : Z) (total : Z) : option Z :=
  Some (total + n)%Z.


End cursor.

(* ===================================================================== *)
(** * Properties                                                          *)
(* ===================================================================== *)

Import v2 compat cursor.

(** ** The composed factory *)

Section ComposedFacts.

Context {W Config PipelineConnector Meta Runner : Type}.
Implicit Types factory fallback :
  RunnerFactory W Config PipelineConnector Meta Runner.

(** When the primary succeeds the fallback is not run at all: result and
    world are the primary's. *)
Lemma Create_primary_ok factory fallback p config meta w runner w1 :
  Create factory p config meta w = ((runner, None), w1) ->
  Create (Combine factory fallback) p config meta w = ((runner, None), w1).
Proof. cbn. unfold composeFactory_Create. intros ->. reflexivity. Qed.

(** After any primary failure the fallback runs, in the world left by the
    primary, and its success is the result. *)
Lemma Create_fallback_ok factory fallback p config meta w r1 e1 w1 runner w2 :
  Create factory p config meta w = ((r1, Some e1), w1) ->
  Create fallback p config meta w1 = ((runner, None), w2) ->
  Create (Combine factory fallback) p config meta w = ((runner, None), w2).
Proof. cbn. unfold composeFactory_Create. intros -> ->. reflexivity. Qed.

(** When both fail, the error is chosen by the primary's. *)
Lemma Create_both_fail factory fallback p config meta w r1 e1 w1 r2 e2 w2 :
  Create factory p config meta w = ((r1, Some e1), w1) ->
  Create fallback p config meta w1 = ((r2, Some e2), w2) ->
  Create (Combine factory fallback) p config meta w =
    ((None, Some (if Is_ErrUnknown e1 then e2 else e1)), w2).
Proof.
  cbn. unfold composeFactory_Create. intros -> ->.
  destruct (Is_ErrUnknown e1); reflexivity.
Qed.



End ComposedFacts.

(** C1, as the code has it: [Create] of [Combine factory fallback] returns
    the primary's runner when the primary succeeds (the fallback is not
    run).  When the primary fails with an [ErrUnknown] error, it returns
    the fallback's outcome: its runner on success, its error (and a nil
    runner) on failure.  When the primary fails with any other error, it
    returns the fallback's runner if the fallback succeeds, and the
    primary's error only if the fallback fails too. *)
Theorem composed_Create_rule {W Config PipelineConnector Meta Runner}
    (factory fallback : RunnerFactory W Config PipelineConnector Meta Runner)
    (p : PipelineConnector) (config : Config) (meta : Meta) (w : W) :
  let composed := Create (Combine factory fallback) p config meta w in
  let '((runner1, err1), w1) := Create factory p config meta w in
  let '((runner2, err2), w2) := Create fallback p config meta w1 in
  match err1 with
  | None => composed = ((runner1, None), w1)
  | Some e1 =>
      if Is_ErrUnknown e1 then
        composed =
          ((match err2 with None => runner2 | Some _ => None end, err2), w2)
      else
        match err2 with
        | None => composed = ((runner2, None), w2)
        | Some _ => composed = ((None, Some e1), w2)
        end
  end.
Proof.
  destruct (Create factory p config meta w) as [[runner1 err1] w1] eqn:H1.
  destruct (Create fallback p config meta w1) as [[runner2 err2] w2] eqn:H2.
  destruct err1 as [e1|].
  - destruct err2 as [e2|].
    + rewrite (Create_both_fail _ _ _ _ _ _ _ _ _ _ _ _ H1 H2).
      destruct (Is_ErrUnknown e1); reflexivity.
    + rewrite (Create_fallback_ok _ _ _ _ _ _ _ _ _ _ _ H1 H2).
      destruct (Is_ErrUnknown e1); reflexivity.
  - apply (Create_primary_ok _ _ _ _ _ _ _ _ H1).
Qed.

(** C1 as worded fails: a primary that rejects the configuration (its
    error is not [ErrUnknown]) combined with a fallback that accepts it
    yields the fallback's runner, not the primary's error. *)
Lemma composed_Create_fallback_wins :
  Create (Combine rejecting accepting) tt tt tt [] =
    ((Some "legacy runner", None), [CallCreate "primary"; CallCreate "fallback"])
  /\ ~ Create_keeps_primary_error rejecting accepting tt tt tt [].
Proof.
  split; [reflexivity|].
  intros H. specialize (H (ErrorString "invalid config") eq_refl eq_refl).
  discriminate H.
Qed.

(** Scenario S5: an unknown type at the primary is answered by the
    fallback, with its runner or with its error. *)
Example composed_Create_S5 :
  Create (Combine unknowing accepting) tt tt tt [] =
    ((Some "legacy runner", None), [CallCreate "primary"; CallCreate "fallback"])
  /\ fst (Create (Combine unknowing failing) tt tt tt []) =
       (None, Some (ErrorString "legacy failure"))
  /\ fst (Create (Combine rejecting failing) tt tt tt []) =
       (None, Some (ErrorString "invalid config")).
Proof. repeat split. Qed.



(** Both fail, the primary not with [ErrUnknown]: [Create] reports the
    primary's error, [CheckConfig] the fallback's. *)
Example composed_both_fail_differ :
  fst (Create (Combine rejecting failing) tt tt tt []) =
    (None, Some (ErrorString "invalid config"))
  /\ fst (CheckConfig (Combine rejecting failing) tt []) =
       Some (ErrorString "legacy failure").
Proof. split; reflexivity. Qed.

(** ** The registry tree *)


Lemma find_node name ps ss :
  find name (mkRegistry ps ss) =
    match ps !! name with
    | Some p => (p, true)
    | None => find_subs name ss
    end.
Proof. reflexivity. Qed.

Lemma each_node {S} order (fn : Plugin -> S -> bool * S) path ps ss s :
  each order fn path (mkRegistry ps ss) s =
    let '(cont, s1) := range_plugins fn (order path ps) s in
    if cont then each_subs order fn path 0 ss s1 else (false, s1).
Proof. reflexivity. Qed.

Lemma traversal_node order path ps ss :
  traversal order path (mkRegistry ps ss) =
    (order path ps ++ traversal_subs order path 0 ss)%list.
Proof. reflexivity. Qed.

Lemma find_subs_cons name sub rest :
  find_subs name (sub :: rest) =
    let '(p, ok) := find name sub in
    if ok then (p, ok) else find_subs name rest.
Proof. reflexivity. Qed.

Lemma traversal_subs_cons order path i sub rest :
  traversal_subs order path i (sub :: rest) =
    (traversal order (path ++ [i]) sub ++ traversal_subs order path (S i) rest)%list.
Proof. reflexivity. Qed.

Lemma keyed_by_name_node ps ss :
  keyed_by_name (mkRegistry ps ss) <->
  (forall k p, ps !! k = Some p -> Name p = k) /\ Forall keyed_by_name ss.
Proof.
  cbn. apply and_iff_compat_l.
  induction ss as [|sub rest IH]; [split; auto|].
  rewrite Forall_cons, IH. reflexivity.
Qed.


(** [Add] keeps plugins filed under their names. *)
Lemma Add_keyed_by_name r e :
  keyed_by_name r ->
  match e with AddonPlugin _ => True | AddonRegistry c => keyed_by_name c end ->
  keyed_by_name (Add r e).
Proof.
  destruct r as [ps ss]. rewrite keyed_by_name_node. intros [Hps Hss] He.
  destruct e as [p|c]; cbn [Add Plugin_addToRegistry Registry_addToRegistry plugins subs];
    apply keyed_by_name_node; split; auto.
  - intros k q. destruct (decide (Name p = k)) as [<-|Hne].
    + rewrite lookup_insert_eq. congruence.
    + rewrite lookup_insert_ne by done. apply Hps.
  - apply Forall_app. split; [done|]. by apply Forall_singleton.
Qed.

(** Children are kept in insertion order: a registry added later is
    searched, and iterated, after all earlier ones. *)
Lemma Add_subs_order r c :
  subs (Add r (AddonRegistry c)) = (subs r ++ [c])%list
  /\ plugins (Add r (AddonRegistry c)) = plugins r.
Proof. split; reflexivity. Qed.

(** Running a stateful callback over a concatenation. *)
Lemma range_plugins_app {S} (fn : Plugin -> S -> bool * S) l1 l2 s :
  range_plugins fn (l1 ++ l2) s =
    let '(cont, s1) := range_plugins fn l1 s in
    if cont then range_plugins fn l2 s1 else (false, s1).
Proof.
  revert s. induction l1 as [|p l1 IH]; intros s; cbn; [reflexivity|].
  destruct (fn p s) as [[] s1]; [apply IH | reflexivity].
Qed.

(** [each] is the early-exit loop over the traversal sequence. *)
Lemma each_traversal {S} order (fn : Plugin -> S -> bool * S) r :
  forall path s,
    each order fn path r s = range_plugins fn (traversal order path r) s.
Proof.
  induction r as [ps ss IH] using Registry_tree_ind. intros path s.
  rewrite each_node, traversal_node, range_plugins_app.
  destruct (range_plugins fn (order path ps) s) as [[] s1]; [|reflexivity].
  generalize 0%nat. revert s1.
  induction IH as [|sub rest Hsub _ IHrest]; intros s1 i; cbn; [reflexivity|].
  rewrite range_plugins_app, Hsub.
  destruct (range_plugins fn _ s1) as [[] s2]; [apply IHrest | reflexivity].
Qed.


Lemma first_named_app name l1 l2 :
  first_named name (l1 ++ l2) =
    match first_named name l1 with
    | Some p => Some p
    | None => first_named name l2
    end.
Proof.
  unfold first_named. induction l1 as [|p l1 IH]; cbn; [reflexivity|].
  destruct (String.eqb (Name p) name); [reflexivity | apply IH].
Qed.

(** In a node whose plugins are filed under their names, scanning the
    direct plugins for a name, in any enumeration, is the map lookup. *)
Lemma first_named_direct order path (ps : gmap string Plugin) name :
  map_range order ->
  (forall k p, ps !! k = Some p -> Name p = k) ->
  first_named name (order path ps) = ps !! name.
Proof.
  intros Hord Hkey.
  assert (Hin : forall x, In x (order path ps) <-> exists k, ps !! k = Some x).
  { intros x. rewrite <- list_elem_of_In, (Hord path ps), list_elem_of_fmap. split.
    - intros [[k y] [-> Hy]]. exists k. by apply elem_of_map_to_list.
    - intros [k Hk]. exists (k, x). split; [done|]. by apply elem_of_map_to_list. }
  unfold first_named.
  destruct (List.find _ (order path ps)) as [x|] eqn:Hf.
  - apply find_some in Hf as [Hx Hname]. apply String.eqb_eq in Hname.
    apply Hin in Hx as [k Hk]. pose proof (Hkey _ _ Hk). by subst.
  - destruct (ps !! name) as [p|] eqn:Hp; [|reflexivity].
    pose proof (find_none _ _ Hf p (proj2 (Hin p) (ex_intro _ _ Hp))) as Hne.
    cbn in Hne. rewrite (Hkey _ _ Hp), String.eqb_refl in Hne. discriminate.
Qed.

(** [find] returns the first plugin with that name met by the traversal. *)
Lemma find_traversal order name r :
  map_range order -> keyed_by_name r ->
  forall path,
    find name r =
      match first_named name (traversal order path r) with
      | Some p => (p, true)
      | None => (Plugin_zero, false)
      end.
Proof.
  intros Hord. induction r as [ps ss IH] using Registry_tree_ind.
  rewrite keyed_by_name_node. intros [Hps Hss] path.
  rewrite find_node, traversal_node, first_named_app, (first_named_direct _ _ _ _ Hord Hps).
  destruct (ps !! name) as [p|]; [reflexivity|].
  generalize 0%nat.
  induction ss as [|sub rest IHrest]; intros i; [reflexivity|].
  apply Forall_cons in IH as [IHsub IH]. apply Forall_cons in Hss as [Hsub Hss].
  rewrite find_subs_cons, traversal_subs_cons, first_named_app.
  rewrite (IHsub Hsub (path ++ [i])%list).
  destruct (first_named name (traversal order _ sub)); [reflexivity|].
  apply (IHrest IH Hss).
Qed.

Lemma reachable_node p ps ss :
  reachable p (mkRegistry ps ss) <->
  (exists k, ps !! k = Some p) \/ Exists (reachable p) ss.
Proof.
  cbn. apply or_iff_compat_l.
  induction ss as [|sub rest IH]; [by rewrite Exists_nil|].
  rewrite Exists_cons, IH. reflexivity.
Qed.

Lemma map_range_elem order path (ps : gmap string Plugin) p :
  map_range order ->
  p ∈ order path ps <-> exists k, ps !! k = Some p.
Proof.
  intros Hord. rewrite (Hord path ps), list_elem_of_fmap. split.
  - intros [[k y] [-> Hy]]. exists k. by apply elem_of_map_to_list.
  - intros [k Hk]. exists (k, p). split; [done|]. by apply elem_of_map_to_list.
Qed.

(** The traversal meets exactly the plugins of the tree. *)
Lemma traversal_reachable order r :
  map_range order ->
  forall path p, p ∈ traversal order path r <-> reachable p r.
Proof.
  intros Hord. induction r as [ps ss IH] using Registry_tree_ind. intros path p.
  rewrite traversal_node, reachable_node, elem_of_app, (map_range_elem _ _ _ _ Hord).
  apply or_iff_compat_l. generalize 0%nat.
  induction IH as [|sub rest Hsub _ IHrest]; intros i.
  - cbn. rewrite Exists_nil. apply elem_of_nil.
  - rewrite traversal_subs_cons, elem_of_app, Exists_cons, Hsub, IHrest. reflexivity.
Qed.




Lemma ascending_map_range : map_range ascending.
Proof. intros path m. reflexivity. Qed.

Lemma descending_map_range : map_range descending.
Proof. intros path m. unfold descending. symmetry. apply Permutation_rev. Qed.

Lemma NewRegistry_keyed_by_name extensions :
  Forall (fun e => match e with
                   | AddonPlugin _ => True
                   | AddonRegistry c => keyed_by_name c
                   end) extensions ->
  keyed_by_name (NewRegistry extensions).
Proof.
  unfold NewRegistry.
  assert (Hempty : keyed_by_name (mkRegistry ∅ [])).
  { apply keyed_by_name_node. split; [|constructor].
    intros k p. rewrite lookup_empty. discriminate. }
  revert Hempty. generalize (mkRegistry ∅ []).
  induction extensions as [|e rest IH]; intros r Hr Hall; cbn; [exact Hr|].
  apply Forall_cons in Hall as [He Hrest].
  apply IH; [|exact Hrest]. by apply Add_keyed_by_name.
Qed.

Lemma nested_keyed_by_name : keyed_by_name nested.
Proof.
  apply NewRegistry_keyed_by_name.
  repeat (apply List.Forall_cons || apply List.Forall_nil);
    try exact I; apply NewRegistry_keyed_by_name;
    repeat (apply List.Forall_cons || apply List.Forall_nil); exact I.
Qed.

(** C7: [Registry.Find] searches a node's direct plugins first and then
    its children, recursively, in insertion order, and returns the first
    plugin that goes by the name; when no plugin of the tree has the name
    it returns the zero plugin and a [LoaderError] with [Name] the queried
    name and [Reason] [ErrUnknown], for which [IsUnknownInputError] holds. *)
Theorem Registry_Find_first_match (order : MapOrder) (r : Registry) (name : string) :
  map_range order -> keyed_by_name r ->
  (forall p, first_named name (traversal order [] r) = Some p ->
             Find name r = (p, None))
  /\ ((forall p, reachable p r -> Name p <> name) ->
      Find name r = (Plugin_zero, Some (LoaderError None name (Some ErrUnknown) ""))
      /\ IsUnknownInputError (snd (Find name r)) = true
      /\ failedInputName (snd (Find name r)) = name)
  /\ (first_named name (traversal order [] r) = None <->
      forall p, reachable p r -> Name p <> name).
Proof.
  intros Hord Hkey.
  pose proof (find_traversal order name r Hord Hkey []) as Hfind.
  assert (Hnone : first_named name (traversal order [] r) = None <->
                  forall p, reachable p r -> Name p <> name).
  { split.
    - intros Hf p Hp Hname.
      apply (traversal_reachable order r Hord []), list_elem_of_In in Hp.
      pose proof (find_none _ _ Hf p Hp) as Hfalse. cbn in Hfalse.
      rewrite Hname, String.eqb_refl in Hfalse. discriminate.
    - intros Hall. unfold first_named.
      destruct (List.find _ _) as [p|] eqn:Hf; [|reflexivity].
      apply find_some in Hf as [Hp Hname]. apply String.eqb_eq in Hname.
      apply list_elem_of_In, (traversal_reachable order r Hord []) in Hp.
      destruct (Hall p Hp Hname). }
  split; [|split; [|exact Hnone]].
  - intros p Hp. unfold Find. rewrite Hfind, Hp. reflexivity.
  - intros Hall. apply Hnone in Hall.
    unfold Find. rewrite Hfind, Hall. cbn. auto.
Qed.

Lemma Registry_Find_first_match_witness :
  Find "grpc" nested = (plugin "grpc", None)
  /\ Find "kafka" nested =
       (Plugin_zero, Some (LoaderError None "kafka" (Some ErrUnknown) "")).
Proof.
  split.
  - apply (proj1 (Registry_Find_first_match ascending nested "grpc"
                    ascending_map_range nested_keyed_by_name)).
    vm_compute. reflexivity.
  - destruct (Registry_Find_first_match ascending nested "kafka"
                ascending_map_range nested_keyed_by_name) as (_ & Hmiss & Hnone).
    apply Hmiss, Hnone. vm_compute. reflexivity.
Defined.




(** ** Source identifiers *)

Lemma string_app_empty_r (s : string) : s ++ "" = s.
Proof. induction s as [|c s IH]; [reflexivity|]. change (String c (s ++ "") = String c s). by rewrite IH. Qed.

(** [%v] copies its operand: nothing of it is read, quoted or escaped. *)
Lemma Sprintf_v2 a b :
  Sprintf "%v::%v" [a; b] = a ++ "::" ++ b.
Proof. cbn. by rewrite string_app_empty_r. Qed.

Lemma Sprintf_v3 a b c :
  Sprintf "%v::%v::%v" [a; b; c] = a ++ "::" ++ b ++ "::" ++ c.
Proof. cbn. by rewrite string_app_empty_r. Qed.

(** C9: the resource key is [inputType ++ "::" ++ userID ++ "::" ++
    sourceName] when the user ID is not empty and [inputType ++ "::" ++
    sourceName] when it is, the components being copied as they are. *)
Theorem createSourceID_layout (inp : managedInput) (s : Source) :
  (userID inp <> "" ->
   createSourceID inp s =
     Type_ (manager inp) ++ "::" ++ userID inp ++ "::" ++ Source_Name s)
  /\ (userID inp = "" ->
      createSourceID inp s = Type_ (manager inp) ++ "::" ++ Source_Name s).
Proof.
  unfold createSourceID. split; intros Hid.
  - apply String.eqb_neq in Hid. rewrite Hid. apply Sprintf_v3.
  - apply String.eqb_eq in Hid. rewrite Hid. apply Sprintf_v2.
Qed.

Lemma createSourceID_layout_witness :
  createSourceID
    {| manager := {| Type_ := "log" |}; userID := "tenant-7";
       sources := []; cleanTimeout := 0%Z |}
    {| Source_Name := "/var/log/syslog" |} = "log::tenant-7::/var/log/syslog"
  /\ createSourceID
       {| manager := {| Type_ := "log" |}; userID := "";
          sources := []; cleanTimeout := 0%Z |}
       {| Source_Name := "f1" |} = "log::f1".
Proof.
  split.
  - apply (proj1 (createSourceID_layout
                    {| manager := {| Type_ := "log" |}; userID := "tenant-7";
                       sources := []; cleanTimeout := 0%Z |}
                    {| Source_Name := "/var/log/syslog" |})).
    cbn. discriminate.
  - apply (proj2 (createSourceID_layout
                    {| manager := {| Type_ := "log" |}; userID := "";
                       sources := []; cleanTimeout := 0%Z |}
                    {| Source_Name := "f1" |})).
    reflexivity.
Defined.

(** Since nothing is escaped, a separator inside a source name is
    indistinguishable from the one put in by [createSourceID]. *)
Example createSourceID_separator_in_name :
  createSourceID
    {| manager := {| Type_ := "log" |}; userID := "";
       sources := []; cleanTimeout := 0%Z |}
    {| Source_Name := "a::b" |}
  = createSourceID
      {| manager := {| Type_ := "log" |}; userID := "a";
         sources := []; cleanTimeout := 0%Z |}
      {| Source_Name := "b" |}.
Proof. reflexivity. Qed.

(** ** The in-memory table *)

Lemma Uint64_Inc_no_overflow (x : Z) :
  (0 <= x < 2 ^ 64 - 1)%Z -> Uint64_Inc x = (x + 1)%Z.
Proof. intros H. unfold Uint64_Inc. apply Z.mod_small. lia. Qed.

(** C6: [states.Find], as one atomic step on the table and the heap of
    resources.  Key present: the pointer stored in the table is returned,
    the table is unchanged and that resource's [pending] counter has been
    incremented ([atomic.Uint64.Inc]: by one, short of the wrap at
    [2^64]), nothing else being touched.  Key absent and [create]: a new
    resource is allocated with [stored = false], a nil cursor and
    [pending = 1], the table maps the key to it, and it is returned.  Key
    absent and no [create]: nil is returned, table and heap are unchanged. *)
Theorem states_Find_cases (k : string) (create : bool) (s : states)
    (h : list resource) :
  (forall l r,
     table s !! k = Some l -> h !! l = Some r ->
     exists h',
       states_Find k create s h = (Some l, s, h')
       /\ h' !! l = Some (set_pending (Uint64_Inc (pending r)) r)
       /\ ((0 <= pending r < 2 ^ 64 - 1)%Z ->
           h' !! l = Some (set_pending (pending r + 1)%Z r))
       /\ length h' = length h
       /\ forall l', l' <> l -> h' !! l' = h !! l')
  /\ (table s !! k = None -> create = true ->
      exists l h',
        states_Find k create s h = (Some l, {| table := <[k := l]> (table s) |}, h')
        /\ h !! l = None
        /\ h' !! l = Some {| pending := 1%Z; lock := false; stored := false;
                             internalInSync := false; key := k;
                             state_ := {| Internal := {| TTL := 0%Z; Updated := Time_zero |};
                                          Cursor := None |} |}
        /\ forall l', l' <> l -> h' !! l' = h !! l')
  /\ (table s !! k = None -> create = false ->
      states_Find k create s h = (None, s, h)).
Proof.
  unfold states_Find. repeat split.
  - intros l r Hk Hl. rewrite Hk. exists (alter Retain l h).
    assert (Hnew : alter Retain l h !! l = Some (set_pending (Uint64_Inc (pending r)) r))
      by (rewrite list_lookup_alter_eq, Hl; reflexivity).
    repeat split.
    + exact Hnew.
    + intros Hrange. by rewrite Hnew, Uint64_Inc_no_overflow.
    + apply length_alter.
    + intros l' Hne. by apply list_lookup_alter_ne.
  - intros Hk ->. rewrite Hk. cbn [negb].
    eexists _, _. split; [reflexivity|]. repeat split.
    + by apply lookup_ge_None.
    + rewrite list_lookup_alter_eq, list_lookup_middle by reflexivity. reflexivity.
    + intros l' Hne. rewrite list_lookup_alter_ne by done.
      destruct (decide (l' < length h)%nat) as [Hlt|Hge].
      * by apply lookup_app_l.
      * trans (@None resource).
        -- apply lookup_ge_None_2. rewrite length_app. cbn. lia.
        -- symmetry. apply lookup_ge_None_2. lia.
  - intros Hk ->. by rewrite Hk.
Qed.

Lemma states_Find_cases_witness :
  (exists h',
     states_Find "log::f1" false sample_states [sample_resource] = (Some 0%nat, sample_states, h')
     /\ h' !! 0%nat = Some (set_pending 3%Z sample_resource))
  /\ (exists l h',
        states_Find "log::f2" true sample_states [sample_resource] =
          (Some l, {| table := <["log::f2" := l]> (table sample_states) |}, h')
        /\ pending <$> h' !! l = Some 1%Z)
  /\ states_Find "log::f2" false sample_states [sample_resource] =
       (None, sample_states, [sample_resource]).
Proof.
  destruct (states_Find_cases "log::f1" false sample_states [sample_resource])
    as (Hpresent & _ & _).
  destruct (states_Find_cases "log::f2" true sample_states [sample_resource])
    as (_ & Hcreate & _).
  destruct (states_Find_cases "log::f2" false sample_states [sample_resource])
    as (_ & _ & Hmiss).
  split; [|split].
  - destruct (Hpresent 0%nat sample_resource eq_refl eq_refl)
      as (h' & Hres & _ & Hinc & _).
    exists h'. split; [exact Hres|]. apply Hinc. cbn. lia.
  - destruct (Hcreate eq_refl eq_refl) as (l & h' & Hres & _ & Hnew & _).
    exists l, h'. split; [exact Hres|]. by rewrite Hnew.
  - apply Hmiss; reflexivity.
Defined.

(** ** The reconciling store *)

(** A transaction leaves exactly one entry in the history of the store:
    the writes its body issued, and the error [Update] returned. *)
Lemma Store_Update_history fn st :
  let '(err, st') := Store_Update fn st in
  let '(_, tx) := fn {| issued := []; pending_faults := faults st |} in
  history st' = (history st ++ [{| ops := issued tx; outcome := err |}])%list.
Proof.
  unfold Store_Update.
  destruct (fn _) as [[e|] tx]; [reflexivity|].
  destruct (next_fault (pending_faults tx)) as [cerr rest]. reflexivity.
Qed.

Lemma Tx_Update_issued k u tx :
  issued (snd (Tx_Update k u tx)) = (issued tx ++ [TxUpdate k u])%list.
Proof. unfold Tx_Update. destruct (next_fault _). reflexivity. Qed.

(** The body of [UpdateCursor] issues the cursor write last, after the
    write of the internal fields when they are not in sync; it stops
    before the cursor write only when that first write fails. *)
Lemma UpdateCursor_tx_issued r cmd tx :
  let '(err, tx') := UpdateCursor_tx r cmd tx in
  let flush := TxUpdate (key r) (registryStateUpdateInternal (Internal (state_ r))) in
  if internalInSync r
  then issued tx' = (issued tx ++ [TxUpdate (key r) cmd])%list
  else issued tx' = (issued tx ++ [flush; TxUpdate (key r) cmd])%list
       \/ (issued tx' = (issued tx ++ [flush])%list /\ err <> None).
Proof.
  unfold UpdateCursor_tx, Tx_Update.
  destruct (internalInSync r); cbn [negb].
  - destruct (next_fault _). reflexivity.
  - destruct (next_fault (pending_faults tx)) as [[e|] rest]; cbn.
    + right. split; [reflexivity | discriminate].
    + destruct (next_fault rest). cbn. left. by rewrite <- app_assoc.
Qed.

Ltac live_pointer H :=
  match type of H with
  | heap ?w !! ?res = Some ?r =>
      unfold store_UpdateInternal, store_UpdateCursor; rewrite H; cbn [mbind option_bind]
  end.

(** The record [UpdateInternal] hands to the store. *)
Lemma UpdateInternal_written (r : resource) (t : Time) :
  (if IsZero (Updated (Internal (state_ r)))
   then {| TTL := TTL (Internal (state_ r)); Updated := t |}
   else Internal (state_ r)) =
  {| TTL := TTL (Internal (state_ r));
     Updated := if IsZero (Updated (Internal (state_ r))) then t
                else Updated (Internal (state_ r)) |}.
Proof.
  destruct (IsZero _); [reflexivity|]. by destruct (Internal (state_ r)).
Qed.

(** [UpdateInternal] through a live pointer, in terms of what the store
    answers. *)
Lemma store_UpdateInternal_live (res : loc) (w : world) (r : resource) :
  heap w !! res = Some r ->
  let written :=
    {| TTL := TTL (Internal (state_ r));
       Updated := if IsZero (Updated (Internal (state_ r))) then now w
                  else Updated (Internal (state_ r)) |} in
  let '(err, ps) :=
    Store_Update (Tx_Update (key r) (registryStateUpdateInternal written))
                 (persistentStore w) in
  store_UpdateInternal res w =
    Some {| heap := match err with
                    | Some _ => alter (set_internalInSync false) res (heap w)
                    | None => alter (set_internalInSync true) res
                                (alter (set_stored true) res (heap w))
                    end;
            ephemeralStore := ephemeralStore w;
            persistentStore := ps;
            now := now w;
            errlog := match err with
                      | Some _ =>
                          (errlog w ++
                           [Sprintf "Failed to update resource management fields for '%v'"
                                    [key r]])%list
                      | None => errlog w
                      end |}.
Proof.
  intros Hres written. live_pointer Hres. rewrite UpdateInternal_written.
  fold written. destruct (Store_Update _ _) as [[e|] ps]; reflexivity.
Qed.



(** C10: [store.UpdateInternal] leaves the resource's in-memory state as
    it was: [state.Internal] (TTL and Updated) and [state.Cursor], and also
    key, pending count and lock; of the resource only [stored] and
    [internalInSync] can differ afterwards, whether the write succeeded or
    not.  The current time put in place of a zero [Updated] exists in the
    written copy only.  No other resource, and nothing of the table,
    changes. *)
Theorem store_UpdateInternal_frame (res : loc) (w : world) (r : resource) :
  heap w !! res = Some r ->
  exists w' r',
    store_UpdateInternal res w = Some w'
    /\ heap w' !! res = Some r'
    /\ state_ r' = state_ r
    /\ key r' = key r /\ pending r' = pending r /\ lock r' = lock r
    /\ (r' = set_internalInSync false r
        \/ r' = set_internalInSync true (set_stored true r))
    /\ (forall l, l <> res -> heap w' !! l = heap w !! l)
    /\ length (heap w') = length (heap w)
    /\ ephemeralStore w' = ephemeralStore w
    /\ now w' = now w
    /\ (IsZero (Updated (Internal (state_ r))) = true ->
        Updated (Internal (state_ r')) = Updated (Internal (state_ r))
        /\ exists err,
             last (history (persistentStore w')) =
               Some {| ops := [TxUpdate (key r)
                                 (registryStateUpdateInternal
                                    {| TTL := TTL (Internal (state_ r));
                                       Updated := now w |})];
                       outcome := err |}).
Proof.
  intros Hres.
  pose proof (store_UpdateInternal_live res w r Hres) as Hrun. cbn zeta in Hrun.
  pose proof (Store_Update_history
                (Tx_Update (key r)
                   (registryStateUpdateInternal
                      {| TTL := TTL (Internal (state_ r));
                         Updated := if IsZero (Updated (Internal (state_ r))) then now w
                                    else Updated (Internal (state_ r)) |}))
                (persistentStore w)) as Hhist.
  pose proof (Tx_Update_issued (key r)
                (registryStateUpdateInternal
                   {| TTL := TTL (Internal (state_ r));
                      Updated := if IsZero (Updated (Internal (state_ r))) then now w
                                 else Updated (Internal (state_ r)) |})
                {| issued := []; pending_faults := faults (persistentStore w) |}) as Hops.
  destruct (Store_Update _ _) as [err ps].
  destruct (Tx_Update _ _ _) as [e0 tx]. cbn in Hops, Hhist. rewrite Hops in Hhist.
  eexists _, (match err with
              | Some _ => set_internalInSync false r
              | None => set_internalInSync true (set_stored true r)
              end).
  split; [exact Hrun|]. cbn.
  split; [destruct err; by rewrite !list_lookup_alter_eq, Hres|].
  split; [by destruct err|]. split; [by destruct err|].
  split; [by destruct err|]. split; [by destruct err|].
  split; [destruct err; auto|].
  split; [intros l Hne; destruct err; by rewrite !list_lookup_alter_ne by done|].
  split; [destruct err; by rewrite !length_alter|].
  split; [reflexivity|]. split; [reflexivity|].
  intros Hzero. split; [by destruct err|].
  exists err. rewrite Hhist, last_snoc, Hzero. reflexivity.
Qed.

Lemma store_UpdateInternal_frame_witness :
  exists w' r',
    store_UpdateInternal 1%nat (sample_world []) = Some w'
    /\ heap w' !! 1%nat = Some r'
    /\ state_ r' = state_zero
    /\ heap w' !! 0%nat = Some sample_resource.
Proof.
  destruct (store_UpdateInternal_frame 1%nat (sample_world []) fresh_resource eq_refl)
    as (w' & r' & Hrun & Hheap & Hstate & _ & _ & _ & _ & Hothers & _).
  exists w', r'. repeat split; try assumption.
  rewrite Hothers by lia. reflexivity.
Defined.

Lemma cursor_writes_snoc st st' rec :
  history st' = (history st ++ [rec])%list ->
  cursor_writes st' = (cursor_writes st ++ List.filter is_cursor_write (ops rec))%list.
Proof.
  unfold cursor_writes. intros ->.
  by rewrite map_app, concat_app, List.filter_app; cbn; rewrite app_nil_r.
Qed.

(** What one call of [UpdateCursor] does to the world. *)
Lemma store_UpdateCursor_run (res : loc) (ts : Time) (cursor : option value)
    (w : world) (r : resource) :
  heap w !! res = Some r ->
  let flush := TxUpdate (key r) (registryStateUpdateInternal (Internal (state_ r))) in
  let write := TxUpdate (key r) (registryStateUpdateCursor ts cursor) in
  exists w' rec,
    store_UpdateCursor res ts cursor w = Some w'
    /\ history (persistentStore w') = (history (persistentStore w) ++ [rec])%list
    /\ outcome rec =
         fst (Store_Update (UpdateCursor_tx r (registryStateUpdateCursor ts cursor))
                           (persistentStore w))
    /\ (if internalInSync r then ops rec = [write]
        else ops rec = [flush; write] \/ (ops rec = [flush] /\ outcome rec <> None))
    /\ match outcome rec with
       | None =>
           heap w' = alter (set_stored true) res (alter (set_internalInSync true) res (heap w))
           /\ errlog w' = errlog w
       | Some _ =>
           heap w' = heap w
           /\ errlog w' =
                (errlog w ++
                 [("Failed to update state in the registry for '" ++ key r ++ "'")%string])%list
       end
    /\ ephemeralStore w' = ephemeralStore w /\ now w' = now w.
Proof.
  intros Hres flush write. live_pointer Hres.
  pose proof (Store_Update_history
                (UpdateCursor_tx r (registryStateUpdateCursor ts cursor))
                (persistentStore w)) as Hhist.
  pose proof (UpdateCursor_tx_issued r (registryStateUpdateCursor ts cursor)
                {| issued := []; pending_faults := faults (persistentStore w) |}) as Hops.
  assert (Hfail : forall e tx,
            UpdateCursor_tx r (registryStateUpdateCursor ts cursor)
              {| issued := []; pending_faults := faults (persistentStore w) |} = (Some e, tx) ->
            fst (Store_Update (UpdateCursor_tx r (registryStateUpdateCursor ts cursor))
                              (persistentStore w)) = Some e).
  { intros e tx H. unfold Store_Update. rewrite H. reflexivity. }
  destruct (Store_Update _ _) as [err ps].
  destruct (UpdateCursor_tx _ _ _) as [e0 tx]. cbn in Hops, Hhist.
  assert (Hissued : if internalInSync r then issued tx = [write]
                    else issued tx = [flush; write] \/ (issued tx = [flush] /\ err <> None)).
  { destruct (internalInSync r); [exact Hops|].
    destruct Hops as [Hops|[Hops Hne]]; [by left|right]. split; [exact Hops|].
    destruct e0 as [e|]; [|done]. specialize (Hfail e tx eq_refl). cbn in Hfail.
    rewrite Hfail. discriminate. }
  destruct err as [e|]; eexists _, {| ops := issued tx; outcome := _ |};
    (split; [reflexivity|]); cbn; repeat split; try exact Hhist; try exact Hissued.
Qed.



(** ** The ACK handler *)

Lemma update_ops_length private :
  (length (update_ops private) <= length private)%nat.
Proof.
  unfold update_ops. induction private as [|[|op|what] rest IH]; cbn; lia.
Qed.

Lemma update_ops_snoc pre e :
  update_ops (pre ++ [e]) =
    match e with
    | PUpdateOp op => (update_ops pre ++ [op])%list
    | _ => update_ops pre
    end.
Proof.
  unfold update_ops. rewrite omap_app.
  destruct e; cbn; by rewrite ?app_nil_r.
Qed.

(** The loop invariant of the scan: having gone through [pre], [n] counts
    the update operations of [pre] and [last] is the index of the last one
    (if there is any). *)
Lemma scan_invariant (private : list private_entry) :
  (Z.of_nat (length private) < 2 ^ 64)%Z ->
  forall rest pre n idx,
    private = (pre ++ rest)%list ->
    n = Z.of_nat (length (update_ops pre)) ->
    (forall op, last (update_ops pre) = Some op ->
                private !! idx = Some (PUpdateOp op)) ->
    let '(n', last') := scan (length pre) rest n idx in
    n' = Z.of_nat (length (update_ops private))
    /\ forall op, last (update_ops private) = Some op ->
                  private !! last' = Some (PUpdateOp op).
Proof.
  intros Hbound. induction rest as [|current rest IH]; intros pre n idx Hsplit Hn Hlast.
  - cbn. rewrite app_nil_r in Hsplit. subst pre. auto.
  - assert (Hsplit' : private = ((pre ++ [current]) ++ rest)%list)
      by (by rewrite <- app_assoc).
    assert (Hidx : S (length pre) = length (pre ++ [current]))
      by (rewrite length_app; cbn; lia).
    pose proof (update_ops_snoc pre current) as Hsnoc.
    cbn [scan]. rewrite Hidx.
    destruct current as [|op|what].
    + apply IH; [exact Hsplit' | by rewrite Hsnoc | by rewrite Hsnoc].
    + apply IH; [exact Hsplit'| |].
      * rewrite Hsnoc, length_app. cbn. subst n.
        pose proof (update_ops_length (pre ++ [PUpdateOp op])) as Hle.
        rewrite Hsnoc, length_app in Hle. cbn in Hle.
        assert (length (pre ++ [PUpdateOp op]) <= length private)%nat
          by (rewrite Hsplit', (length_app (pre ++ _)); lia).
        rewrite Z.mod_small by lia. lia.
      * rewrite Hsnoc, last_snoc. intros op' [= <-].
        rewrite Hsplit. by apply list_lookup_middle.
    + apply IH; [exact Hsplit' | by rewrite Hsnoc | by rewrite Hsnoc].
Qed.

(** The handler runs [Execute] once, on the last update operation of the
    batch and with their number, or not at all. *)
Lemma inputACKHandler_last {W} (Execute : updateOp -> Z -> W -> option W)
    (acked : Z) (private : list private_entry) (w : W) :
  (Z.of_nat (length private) < 2 ^ 64)%Z ->
  inputACKHandler Execute acked private w =
    match last (update_ops private) with
    | None => Some w
    | Some op => Execute op (Z.of_nat (length (update_ops private))) w
    end.
Proof.
  intros Hbound. unfold inputACKHandler.
  pose proof (scan_invariant private Hbound private [] 0%Z 0%nat eq_refl eq_refl) as Hscan.
  cbn [length] in Hscan.
  destruct (scan 0 private 0 0) as [n last'].
  destruct Hscan as [Hn Hlast]; [intros op; cbn; discriminate|].
  destruct (last (update_ops private)) as [op|] eqn:Hop.
  - assert (n <> 0%Z) as Hnz.
    { subst n. destruct (update_ops private); [discriminate | cbn; lia]. }
    apply Z.eqb_neq in Hnz. rewrite Hnz, (Hlast op eq_refl), Hn. reflexivity.
  - apply last_None in Hop. rewrite Hop in Hn. cbn in Hn. subst n. reflexivity.
Qed.

(** One execution of an update operation asks the store for one
    transaction, holding at most one cursor write: the operation's own. *)
Lemma updateOp_Execute_writes (op : updateOp) (n : Z) (w : world) (r : resource) :
  heap w !! op_resource op = Some r ->
  exists w',
    updateOp_Execute op n w = Some w'
    /\ length (history (persistentStore w')) = S (length (history (persistentStore w)))
    /\ (cursor_writes (persistentStore w') =
          (cursor_writes (persistentStore w) ++
           [TxUpdate (key r) (registryStateUpdateCursor (timestamp op) (delta op))])%list
        \/ cursor_writes (persistentStore w') = cursor_writes (persistentStore w)).
Proof.
  intros Hres. unfold updateOp_Execute.
  set (w1 := set_heap _ w).
  assert (Hres1 : heap w1 !! op_resource op = Some (set_Updated (timestamp op) r))
    by (subst w1; cbn; by rewrite list_lookup_alter_eq, Hres).
  destruct (store_UpdateCursor_run (op_resource op) (timestamp op) (delta op) w1 _ Hres1)
    as (w2 & rec & Hrun & Hhist & _ & Hops & _).
  rewrite Hrun. cbn [mbind option_bind]. eexists. split; [reflexivity|]. cbn.
  split; [rewrite Hhist, length_app; cbn; subst w1; cbn; lia|].
  rewrite (cursor_writes_snoc _ _ _ Hhist). subst w1. cbn [persistentStore set_heap].
  cbn [key set_Updated] in Hops.
  destruct (internalInSync (set_Updated (timestamp op) r)).
  - rewrite Hops. left. reflexivity.
  - destruct Hops as [->|[-> _]]; [left; reflexivity | right; cbn; by rewrite app_nil_r].
Qed.

(** C2: entries of the batch that are nil or not update operations play
    no part; without any update operation nothing is executed; otherwise
    exactly one update operation is executed, the last one of the list,
    with the number of update operations of the batch as its count.  So
    the store is asked for at most one cursor write per batch, and it
    carries the cursor value of the last update operation. *)
Theorem inputACKHandler_collapse (acked : Z) (private : list private_entry) :
  (Z.of_nat (length private) < 2 ^ 64)%Z ->
  let n := Z.of_nat (length (update_ops private)) in
  (forall W (Execute : updateOp -> Z -> W -> option W) (w : W),
     inputACKHandler Execute acked private w =
       match last (update_ops private) with
       | None => Some w
       | Some op => Execute op n w
       end)
  /\ (forall w : world,
        match last (update_ops private) with
        | None => inputACKHandler updateOp_Execute acked private w = Some w
        | Some op =>
            forall r, heap w !! op_resource op = Some r ->
            exists w',
              inputACKHandler updateOp_Execute acked private w = Some w'
              /\ length (history (persistentStore w')) =
                   S (length (history (persistentStore w)))
              /\ (cursor_writes (persistentStore w') =
                    (cursor_writes (persistentStore w) ++
                     [TxUpdate (key r)
                        (registryStateUpdateCursor (timestamp op) (delta op))])%list
                  \/ cursor_writes (persistentStore w') =
                       cursor_writes (persistentStore w))
        end).
Proof.
  intros Hbound n. split.
  - intros W Execute w. by apply inputACKHandler_last.
  - intros w. rewrite (inputACKHandler_last _ _ _ _ Hbound).
    destruct (last (update_ops private)) as [op|]; [|reflexivity].
    intros r Hres. by apply updateOp_Execute_writes.
Qed.

Lemma inputACKHandler_collapse_witness :
  (exists w',
     inputACKHandler updateOp_Execute 6%Z sample_batch (sample_world []) = Some w'
     /\ length (history (persistentStore w')) = 1%nat
     /\ cursor_writes (persistentStore w') =
          [TxUpdate "log::f1"
             (registryStateUpdateCursor {| sec := 63900000000%Z; nsec := 30%Z |}
                                        (Some (VMap [("offset", VInt 30)])))])
  /\ inputACKHandler updateOp_Execute 2%Z [PNil; PForeign "metrics"] (sample_world []) =
       Some (sample_world []).
Proof.
  split.
  - assert (Hbound : (Z.of_nat (length sample_batch) < 2 ^ 64)%Z) by (cbn; lia).
    destruct (proj2 (inputACKHandler_collapse 6%Z sample_batch Hbound) (sample_world [])
                sample_resource eq_refl)
      as (w' & Hrun & Hone & Hwrites).
    exists w'. split; [exact Hrun|]. split; [exact Hone|].
    pose proof Hrun as Hval. vm_compute in Hval. injection Hval as <-. reflexivity.
  - assert (Hbound : (Z.of_nat (length [PNil; PForeign "metrics"]) < 2 ^ 64)%Z)
      by (cbn; lia).
    exact (proj2 (inputACKHandler_collapse 2%Z [PNil; PForeign "metrics"] Hbound)
                 (sample_world [])).
Defined.

(* ===================================================================== *)
(** * Further properties                                                  *)
(* ===================================================================== *)

(** ** Chains of composed factories *)

(** [Combine] is associative: three factories chained either way run in
    the same order and give the same runner, error and world, for [Create]
    and for [CheckConfig]. *)
Theorem Combine_assoc {W Config PipelineConnector Meta Runner}
    (a b c : RunnerFactory W Config PipelineConnector Meta Runner)
    (p : PipelineConnector) (config : Config) (meta : Meta) (w : W) :
  Create (Combine (Combine a b) c) p config meta w =
    Create (Combine a (Combine b c)) p config meta w
  /\ CheckConfig (Combine (Combine a b) c) config w =
       CheckConfig (Combine a (Combine b c)) config w.
Proof.
  cbn. unfold composeFactory_Create, composeFactory_CheckConfig. cbn.
  unfold composeFactory_Create, composeFactory_CheckConfig. split.
  - destruct (Create a p config meta w) as [[r1 [e1|]] w1]; [|reflexivity].
    destruct (Create b p config meta w1) as [[r2 [e2|]] w2]; [|reflexivity].
    destruct (Is_ErrUnknown e1) eqn:H1; destruct (Is_ErrUnknown e2) eqn:H2; cbn;
      destruct (Create c p config meta w2) as [[r3 [e3|]] w3];
      rewrite ?H1, ?H2; reflexivity.
  - destruct (CheckConfig a config w) as [[e1|] w1]; [|reflexivity].
    destruct (CheckConfig b config w1) as [[e2|] w2]; reflexivity.
Qed.

(** The composed [Create] fails exactly when the primary fails and the
    fallback, run after it, fails too.  A failure comes with a nil runner
    and with the error of one of the two, and it is an unknown-input error
    only when both errors are. *)
Theorem composed_Create_failure {W Config PipelineConnector Meta Runner}
    (factory fallback : RunnerFactory W Config PipelineConnector Meta Runner)
    (p : PipelineConnector) (config : Config) (meta : Meta) (w : W) :
  let '((runner, err), _) := Create (Combine factory fallback) p config meta w in
  let '((_, err1), w1) := Create factory p config meta w in
  let '((_, err2), _) := Create fallback p config meta w1 in
  (err <> None <-> err1 <> None /\ err2 <> None)
  /\ (err <> None -> runner = None /\ (err = err1 \/ err = err2))
  /\ IsUnknownInputError err =
       IsUnknownInputError err1 && IsUnknownInputError err2.
Proof.
  cbn. unfold composeFactory_Create.
  destruct (Create factory p config meta w) as [[r1 [e1|]] w1].
  - destruct (Create fallback p config meta w1) as [[r2 [e2|]] w2].
    + destruct (Is_ErrUnknown e1) eqn:H1; cbn; rewrite ?H1;
        repeat split; auto; try discriminate.
    + cbn. rewrite andb_false_r. repeat split; try tauto; intros []; congruence.
  - destruct (Create fallback p config meta w1) as [[r2 err2] w2].
    cbn. repeat split; try tauto; intros []; congruence.
Qed.

Lemma composed_Create_failure_witness :
  IsUnknownInputError (snd (fst (Create (Combine unknowing failing) tt tt tt []))) = false
  /\ fst (fst (Create (Combine unknowing failing) tt tt tt [])) = None.
Proof.
  pose proof (composed_Create_failure unknowing failing tt tt tt []) as H.
  cbv in H. destruct H as (_ & Hnil & Hunknown).
  split; [exact Hunknown|]. apply Hnil. discriminate.
Defined.

(** ** Loader errors *)

Lemma string_app_cons (c : ascii) (s t : string) :
  String c s ++ t = String c (s ++ t).
Proof. reflexivity. Qed.

Lemma string_app_assoc (s t u : string) : (s ++ t) ++ u = s ++ t ++ u.
Proof.
  induction s as [|c s IH]; [reflexivity|].
  rewrite !string_app_cons. by rewrite IH.
Qed.

Lemma loader_error_text_nonempty (buf : string) :
  (if Nat.eqb (String.length buf) 0 then "<loader error>" else buf) <> "".
Proof. destruct buf; cbn; discriminate. Qed.

(** The text of a [LoaderError] is never empty, and its [Name] is shown
    only when there is no [Message]: with a message the text is the
    message, followed by ": " and the reason's text when there is a
    reason. *)
Theorem LoaderError_Error_text d name reason message :
  error_Error (LoaderError d name reason message) <> ""
  /\ (message <> "" ->
      error_Error (LoaderError d name reason message) =
        match reason with
        | Some r => message ++ ": " ++ error_Error r
        | None => message
        end).
Proof.
  cbn [error_Error]. unfold LoaderError_Error. split.
  - apply loader_error_text_nonempty.
  - intros Hmsg. apply String.eqb_neq in Hmsg. rewrite Hmsg. cbn [negb].
    destruct message as [|ch message]; [discriminate|].
    destruct reason as [r|]; cbn -[error_Error]; [|reflexivity].
    rewrite string_app_assoc, string_app_cons. reflexivity.
Qed.

Lemma LoaderError_Error_text_witness :
  error_Error (LoaderError None "log" (Some (ErrorString "permission denied"))
                 "cannot open input")
  = "cannot open input: permission denied".
Proof.
  apply (proj2 (LoaderError_Error_text None "log"
                  (Some (ErrorString "permission denied")) "cannot open input")).
  discriminate.
Defined.


(** ** Lookups in a growing registry *)

(** A failed [find] returns the zero plugin. *)
Lemma find_miss_zero name r :
  snd (find name r) = false -> fst (find name r) = Plugin_zero.
Proof.
  induction r as [ps ss IH] using Registry_tree_ind. rewrite find_node.
  destruct (ps !! name) as [p|]; [discriminate|].
  induction IH as [|sub rest Hsub _ IHrest]; [reflexivity|].
  rewrite find_subs_cons. destruct (find name sub) as [p [|]]; [discriminate|].
  exact IHrest.
Qed.

Lemma find_subs_app name l1 l2 :
  find_subs name (l1 ++ l2) =
    let '(p, ok) := find_subs name l1 in
    if ok then (p, ok) else find_subs name l2.
Proof.
  induction l1 as [|sub rest IH]; [reflexivity|].
  change ((sub :: rest) ++ l2)%list with (sub :: (rest ++ l2))%list.
  rewrite !find_subs_cons. destruct (find name sub) as [p [|]]; [reflexivity|].
  exact IH.
Qed.

Lemma find_filed name r : snd (find name r) = true <-> filed name r.
Proof.
  induction r as [ps ss IH] using Registry_tree_ind. rewrite find_node. cbn [filed].
  destruct (ps !! name) as [p|].
  - cbn. split; [intros _; left; by eexists | reflexivity].
  - transitivity ((fix any (l : list Registry) : Prop :=
                     match l with
                     | [] => False
                     | sub :: rest => filed name sub \/ any rest
                     end) ss).
    + induction IH as [|sub rest Hsub _ IHrest]; [cbn; split; [discriminate|tauto]|].
      rewrite find_subs_cons, <- Hsub, <- IHrest.
      destruct (find name sub) as [p [|]]; cbn; split; auto.
      intros [H|H]; [discriminate | exact H].
    + split; [by right|]. intros [[x Hx]|H]; [discriminate | exact H].
Qed.

(** [Registry.Find] succeeds exactly when some node of the tree has a
    plugin under the key; otherwise it returns the zero plugin and the
    unknown-input [LoaderError] for the name.  It fails in no other way. *)
Theorem Find_fails_only_unknown (name : string) (r : Registry) :
  (snd (Find name r) = None <-> filed name r)
  /\ (~ filed name r ->
      Find name r = (Plugin_zero, Some (LoaderError None name (Some ErrUnknown) "")))
  /\ (IsUnknownInputError (snd (Find name r)) = true <-> ~ filed name r).
Proof.
  pose proof (find_filed name r) as Hfiled.
  pose proof (find_miss_zero name r) as Hzero.
  unfold Find. destruct (find name r) as [p [|]]; cbn in *.
  - assert (F : filed name r) by (by apply Hfiled).
    split; [tauto|]. split; [intros H; destruct (H F)|].
    split; [discriminate | intros H; destruct (H F)].
  - assert (NF : ~ filed name r) by (intros H; apply Hfiled in H; discriminate).
    rewrite (Hzero eq_refl).
    split; [split; [discriminate | intros H; destruct (NF H)]|].
    split; [reflexivity | tauto].
Qed.

Lemma Find_fails_only_unknown_witness :
  Find "kafka" two_plugins =
    (Plugin_zero, Some (LoaderError None "kafka" (Some ErrUnknown) "")).
Proof.
  apply (proj1 (proj2 (Find_fails_only_unknown "kafka" two_plugins))).
  intros H. apply (proj1 (Find_fails_only_unknown "kafka" two_plugins)) in H.
  vm_compute in H. discriminate H.
Defined.

(** Adding a child registry never changes a lookup that succeeded, and a
    lookup that failed is answered by the new child alone. *)
Theorem Find_Add_registry (name : string) (r c : Registry) :
  (snd (Find name r) = None ->
   Find name (Add r (AddonRegistry c)) = Find name r)
  /\ (snd (Find name r) <> None ->
      Find name (Add r (AddonRegistry c)) = Find name c).
Proof.
  pose proof (find_miss_zero name c) as Hzero.
  destruct r as [ps ss]. unfold Find, Add, Registry_addToRegistry. cbn [plugins subs].
  rewrite !find_node, find_subs_app, find_subs_cons.
  destruct (ps !! name) as [p|]; [split; [reflexivity | intros []; reflexivity]|].
  destruct (find_subs name ss) as [p [|]]; cbn.
  - split; [reflexivity | intros []; reflexivity].
  - split; [discriminate|]. intros _.
    destruct (find name c) as [q [|]]; cbn in *; [reflexivity|].
    by rewrite (Hzero eq_refl).
Qed.

Lemma Find_Add_registry_witness :
  Find "log" (Add two_plugins (AddonRegistry nested)) = (plugin "log", None)
  /\ Find "journald" (Add two_plugins (AddonRegistry nested)) = Find "journald" nested.
Proof.
  split.
  - rewrite (proj1 (Find_Add_registry "log" two_plugins nested)); reflexivity.
  - apply (proj2 (Find_Add_registry "journald" two_plugins nested)).
    vm_compute. discriminate.
Defined.

Lemma fold_left_Add_registries (cs : list Registry) (r : Registry) :
  fold_left Add (AddonRegistry <$> cs) r = mkRegistry (plugins r) (subs r ++ cs).
Proof.
  revert r. induction cs as [|c cs IH]; intros [ps ss]; cbn.
  - by rewrite app_nil_r.
  - rewrite IH. cbn. by rewrite <- app_assoc.
Qed.

(** A registry made of registries keeps them in the order given, and a
    lookup in it is the lookup in the first of them that knows the name. *)
Theorem NewRegistry_of_registries (name : string) (cs : list Registry) :
  subs (NewRegistry (AddonRegistry <$> cs)) = cs
  /\ (forall i c,
        cs !! i = Some c -> snd (Find name c) = None ->
        (forall j c', j < i -> cs !! j = Some c' -> snd (Find name c') <> None) ->
        Find name (NewRegistry (AddonRegistry <$> cs)) = Find name c)
  /\ ((forall c, c ∈ cs -> snd (Find name c) <> None) ->
      Find name (NewRegistry (AddonRegistry <$> cs)) =
        (Plugin_zero, Some (LoaderError None name (Some ErrUnknown) ""))).
Proof.
  unfold NewRegistry. rewrite fold_left_Add_registries. cbn [plugins subs app].
  assert (Hmiss : forall c, snd (Find name c) <> None -> snd (find name c) = false).
  { intros c. unfold Find. destruct (find name c) as [p [|]]; cbn; [by intros []|done]. }
  assert (Hhit : forall c, snd (Find name c) = None -> snd (find name c) = true).
  { intros c. unfold Find. destruct (find name c) as [p [|]]; cbn; [done|discriminate]. }
  split; [reflexivity|]. split.
  - intros i c Hi Hc Hbefore. unfold Find at 1. rewrite find_node, lookup_empty.
    revert i Hi Hbefore. induction cs as [|c0 cs IH]; intros i Hi Hbefore; [discriminate|].
    rewrite find_subs_cons. destruct i as [|i].
    + injection Hi as ->. unfold Find. apply Hhit in Hc.
      destruct (find name c) as [q [|]]; [reflexivity | discriminate].
    + pose proof (Hmiss c0 (Hbefore 0 c0 ltac:(lia) eq_refl)) as H0.
      destruct (find name c0) as [q [|]]; [discriminate|].
      apply (IH i Hi). intros j c' Hj Hc'. apply (Hbefore (S j) c'); [lia | exact Hc'].
  - intros Hall. unfold Find. rewrite find_node, lookup_empty.
    assert (Hsubs : find_subs name cs = (Plugin_zero, false)).
    { induction cs as [|c0 cs IH]; [reflexivity|].
      rewrite find_subs_cons.
      pose proof (Hmiss c0 (Hall c0 ltac:(left))) as H0.
      destruct (find name c0) as [q [|]]; [discriminate|].
      apply IH. intros c Hc. apply Hall. by right. }
    rewrite Hsubs. reflexivity.
Qed.

Lemma NewRegistry_of_registries_witness :
  Find "journald" (NewRegistry (AddonRegistry <$> [two_plugins; nested])) =
    (plugin "journald", None).
Proof.
  rewrite (proj1 (proj2 (NewRegistry_of_registries "journald" [two_plugins; nested]))
             1 nested eq_refl).
  - vm_compute. reflexivity.
  - vm_compute. reflexivity.
  - intros [|j] c' Hj Hc'; [|lia]. injection Hc' as <-. vm_compute. discriminate.
Defined.

(** ** The names of a registry *)

Lemma range_plugins_collect (l : list Plugin) (uniq : gset string) :
  snd (range_plugins (fun p u => (true, {[Name p]} ∪ u)) l uniq) =
    list_to_set (Name <$> l) ∪ uniq.
Proof.
  revert uniq. induction l as [|p l IH]; intros uniq; cbn.
  - apply set_eq. intros x. rewrite elem_of_union, elem_of_empty. tauto.
  - rewrite IH. apply set_eq. intros x.
    rewrite !elem_of_union, elem_of_singleton. tauto.
Qed.

(** The set of names [Registry.Names] collects holds exactly the names of
    the plugins of the tree, however the runtime enumerates the plugin
    maps; so it is the same set on every run. *)
Theorem Names_uniq_reachable (order1 order2 : MapOrder) (r : Registry) :
  map_range order1 -> map_range order2 ->
  (forall name,
     name ∈ Names_uniq order1 r <-> exists p, reachable p r /\ Name p = name)
  /\ Names_uniq order1 r = Names_uniq order2 r.
Proof.
  intros H1 H2.
  assert (Hin : forall order, map_range order ->
            forall name, name ∈ Names_uniq order r <->
                         exists p, reachable p r /\ Name p = name).
  { intros order Hord name. unfold Names_uniq, Each.
    rewrite each_traversal, range_plugins_collect.
    rewrite elem_of_union, elem_of_list_to_set, list_elem_of_fmap.
    split.
    - intros [(p & -> & Hp)|Hempty]; [|by apply elem_of_empty in Hempty].
      exists p. split; [|reflexivity]. by apply (traversal_reachable order r Hord []).
    - intros (p & Hp & <-). left. exists p. split; [reflexivity|].
      by apply (traversal_reachable order r Hord []). }
  split; [by apply Hin|].
  apply set_eq. intros name. by rewrite !Hin.
Qed.

Lemma Names_uniq_reachable_witness :
  Names_uniq ascending nested = Names_uniq descending nested
  /\ "grpc" ∈ Names_uniq ascending nested.
Proof.
  destruct (Names_uniq_reachable ascending descending nested
              ascending_map_range descending_map_range) as [Hin Heq].
  split; [exact Heq|].
  apply Hin. exists (plugin "grpc"). split; [|reflexivity].
  apply (traversal_reachable ascending nested ascending_map_range []).
  vm_compute. do 2 right. left.
Defined.

(** ** Resource keys *)

Lemma string_app_inv_head (s a b : string) : s ++ a = s ++ b -> a = b.
Proof.
  induction s as [|c s IH]; [done|].
  rewrite !string_app_cons. intros [= H]. by apply IH.
Qed.

Lemma prefix_app (p x : string) : String.prefix p (p ++ x) = true.
Proof.
  induction p as [|c p IH]; [by destruct x|].
  rewrite string_app_cons. cbn [String.prefix].
  destruct (ascii_dec c c); [exact IH | done].
Qed.

(** Within one managed input the keys of two sources coincide only if
    the source names do. *)
Theorem createSourceID_inj (inp : managedInput) (s1 s2 : Source) :
  createSourceID inp s1 = createSourceID inp s2 ->
  Source_Name s1 = Source_Name s2.
Proof.
  unfold createSourceID. destruct (negb _).
  - rewrite !Sprintf_v3. intros H.
    apply string_app_inv_head in H. apply (string_app_inv_head "::") in H.
    apply string_app_inv_head in H. by apply (string_app_inv_head "::") in H.
  - rewrite !Sprintf_v2. intros H.
    apply string_app_inv_head in H. by apply (string_app_inv_head "::") in H.
Qed.

Lemma createSourceID_inj_witness :
  Source_Name {| Source_Name := "f1" |} = Source_Name {| Source_Name := "f1" |}.
Proof.
  apply (createSourceID_inj
           {| manager := {| Type_ := "log" |}; userID := "tenant-7";
              sources := []; cleanTimeout := 0%Z |}).
  reflexivity.
Defined.

(** Every key made by [createSourceID] starts with the input type and the
    separator: it passes the filter [readStates] applies when given the
    input type as prefix. *)
Theorem createSourceID_HasPrefix (inp : managedInput) (s : Source) :
  HasPrefix (createSourceID inp s) (Type_ (manager inp) ++ "::") = true.
Proof.
  unfold HasPrefix, createSourceID. destruct (negb _).
  - rewrite Sprintf_v3.
    rewrite <- (string_app_assoc (Type_ (manager inp)) "::"). apply prefix_app.
  - rewrite Sprintf_v2.
    rewrite <- (string_app_assoc (Type_ (manager inp)) "::"). apply prefix_app.
Qed.

(** ** Reference counts *)

(** For a counter in range, [Release] undoes [Retain] and [Retain] undoes
    [Release]; a retained resource is not [Finished] (short of the wrap at
    [2^64]); and a [Release] without a matching [Retain] wraps the counter
    of an unused resource to [2^64 - 1], so that it is not [Finished]
    either. *)
Theorem Retain_Release (e : resource) :
  (0 <= pending e < 2 ^ 64)%Z ->
  Release (Retain e) = e
  /\ Retain (Release e) = e
  /\ ((pending e < 2 ^ 64 - 1)%Z -> Finished (Retain e) = false)
  /\ (Finished e = true ->
      pending (Release e) = (2 ^ 64 - 1)%Z /\ Finished (Release e) = false).
Proof.
  intros Hrange. destruct e as [n lk st sync k state]. cbn in Hrange.
  unfold Release, Retain, Finished, set_pending, Uint64_Inc, Uint64_Dec. cbn.
  repeat split.
  - f_equal. destruct (decide (n = 2 ^ 64 - 1)%Z) as [->|Hne]; [reflexivity|].
    rewrite (Z.mod_small (n + 1)) by lia.
    replace (n + 1 - 1)%Z with n by lia. apply Z.mod_small. lia.
  - f_equal. destruct (decide (n = 0)%Z) as [->|Hne]; [reflexivity|].
    rewrite (Z.mod_small (n - 1)) by lia.
    replace (n - 1 + 1)%Z with n by lia. apply Z.mod_small. lia.
  - intros Hlt. rewrite Z.mod_small by lia. apply Z.eqb_neq. lia.
  - apply Z.eqb_eq in H. subst n. reflexivity.
  - apply Z.eqb_eq in H. subst n. reflexivity.
Qed.

Lemma Retain_Release_witness :
  Release (Retain sample_resource) = sample_resource
  /\ Finished (Retain sample_resource) = false.
Proof.
  assert (Hrange : (0 <= pending sample_resource < 2 ^ 64)%Z) by (cbn; lia).
  destruct (Retain_Release sample_resource Hrange) as (H1 & _ & H3 & _).
  split; [exact H1|]. apply H3. cbn. lia.
Defined.

(** ** The table of resources *)

(** [states.Find] keeps the table sound: entries point to live resources
    filed under their own key.  What it returns is the table's entry for
    the key; the entries of other keys are left alone; and it returns nil
    only for an absent key without [create]. *)
Theorem states_Find_table_ok (k : string) (create : bool) (s : states)
    (h : list resource) :
  table_ok s h ->
  let '(res, s', h') := states_Find k create s h in
  table_ok s' h'
  /\ (forall l, res = Some l ->
        table s' !! k = Some l /\ exists r, h' !! l = Some r /\ key r = k)
  /\ (forall k', k' <> k -> table s' !! k' = table s !! k')
  /\ (res = None <-> table s !! k = None /\ create = false).
Proof.
  intros Hok. unfold states_Find.
  destruct (table s !! k) as [l|] eqn:Hk.
  - destruct (Hok k l Hk) as (r & Hr & Hkey).
    assert (Hl : alter Retain l h !! l = Some (Retain r))
      by (by rewrite list_lookup_alter_eq, Hr).
    refine (conj _ (conj _ (conj _ _))).
    + intros k' l' Hk'. destruct (Hok k' l' Hk') as (r' & Hr' & Hkey').
      destruct (decide (l = l')) as [<-|Hne].
      * exists (Retain r). split; [exact Hl|]. cbn. congruence.
      * exists r'. by rewrite list_lookup_alter_ne.
    + intros l' [= <-]. split; [done|]. exists (Retain r). by split.
    + done.
    + split; [discriminate|]. intros [H _]. discriminate.
  - destruct create; cbn [negb].
    + assert (Hnew : alter Retain (length h)
                       (h ++ [{| pending := 0%Z; lock := false; stored := false;
                                 internalInSync := false; key := k;
                                 state_ := state_zero |}])%list !! length h
                     = Some (Retain {| pending := 0%Z; lock := false; stored := false;
                                       internalInSync := false; key := k;
                                       state_ := state_zero |}))
        by (by rewrite list_lookup_alter_eq, list_lookup_middle).
      refine (conj _ (conj _ (conj _ _))).
      * intros k' l'. cbn [table]. destruct (decide (k = k')) as [<-|Hne].
        -- rewrite lookup_insert_eq. intros [= <-]. eexists. by split.
        -- rewrite lookup_insert_ne by done. intros Hk'.
           destruct (Hok k' l' Hk') as (r' & Hr' & Hkey').
           exists r'. split; [|exact Hkey'].
           rewrite list_lookup_alter_ne by (apply lookup_lt_Some in Hr'; lia).
           rewrite lookup_app_l by (by apply lookup_lt_Some in Hr'). exact Hr'.
      * intros l [= <-]. cbn [table]. rewrite lookup_insert_eq.
        split; [done|]. eexists. by split.
      * intros k' Hne. cbn [table]. by rewrite lookup_insert_ne.
      * split; [discriminate|]. intros [_ H]. discriminate.
    + refine (conj Hok (conj _ (conj _ _))); [discriminate | done | done].
Qed.

Lemma sample_table_ok : table_ok sample_states [sample_resource].
Proof.
  intros k l. unfold sample_states. cbn [table].
  destruct (decide (k = "log::f1")) as [->|Hne].
  - rewrite lookup_singleton_eq. intros [= <-]. by exists sample_resource.
  - by rewrite lookup_singleton_ne.
Qed.

Lemma states_Find_table_ok_witness :
  let '(res, s', h') := states_Find "log::f2" true sample_states [sample_resource] in
  table_ok s' h' /\ res = Some 1%nat.
Proof.
  pose proof (states_Find_table_ok "log::f2" true sample_states [sample_resource]
                sample_table_ok) as H.
  destruct (states_Find "log::f2" true sample_states [sample_resource])
    as [[res s'] h'] eqn:Hrun.
  split; [exact (proj1 H)|]. vm_compute in Hrun. by injection Hrun as <- _ _.
Defined.

(** Asking twice gives the same resource: after [Find(key, true)], any
    further [Find] for the key returns the same pointer and leaves the
    table as it is; each call has retained the resource once more. *)
Theorem states_Find_again (k : string) (create2 : bool) (s : states)
    (h : list resource) :
  let '(res1, s1, h1) := states_Find k true s h in
  let '(res2, s2, h2) := states_Find k create2 s1 h1 in
  res1 <> None /\ res2 = res1 /\ s2 = s1
  /\ forall l, res1 = Some l -> h2 !! l = Retain <$> h1 !! l.
Proof.
  destruct (states_Find k true s h) as [[res1 s1] h1] eqn:H1.
  unfold states_Find in H1.
  destruct (table s !! k) as [l|] eqn:Hk; cbn [negb] in H1;
    injection H1 as <- <- <-; unfold states_Find; cbn [table];
    rewrite ?Hk, ?lookup_insert_eq;
    (refine (conj _ (conj eq_refl (conj eq_refl _))); [discriminate|]);
    intros l' [= <-]; apply list_lookup_alter_eq.
Qed.

Lemma states_Find_again_witness :
  let '(res1, s1, h1) := states_Find "log::f2" true sample_states [sample_resource] in
  let '(res2, s2, h2) := states_Find "log::f2" false s1 h1 in
  res2 = res1 /\ pending <$> h2 !! 1%nat = Some 2%Z.
Proof.
  pose proof (states_Find_again "log::f2" false sample_states [sample_resource]) as H.
  destruct (states_Find "log::f2" true sample_states [sample_resource])
    as [[res1 s1] h1] eqn:H1.
  destruct (states_Find "log::f2" false s1 h1) as [[res2 s2] h2] eqn:H2.
  destruct H as (_ & Hsame & _ & Hretain). split; [exact Hsame|].
  vm_compute in H1. injection H1 as <- <- <-.
  rewrite (Hretain 1%nat eq_refl). reflexivity.
Defined.

(** ** Loading the table *)

Section ReadStatesFacts.

Variable verbose : error -> string.



End ReadStatesFacts.



(** ** Writes to the registry *)

(** [store.UpdateCursor] leaves the resource's in-memory state alone -
    the cursor it is given goes to the registry only - as well as its key,
    pending count and lock, every other resource and the table; and every
    write of its transaction is made under the resource's own key. *)
Theorem store_UpdateCursor_frame (res : loc) (ts : Time) (cursor : option value)
    (w : world) (r : resource) :
  heap w !! res = Some r ->
  exists w' r',
    store_UpdateCursor res ts cursor w = Some w'
    /\ heap w' !! res = Some r'
    /\ state_ r' = state_ r
    /\ key r' = key r /\ pending r' = pending r /\ lock r' = lock r
    /\ (forall l, l <> res -> heap w' !! l = heap w !! l)
    /\ ephemeralStore w' = ephemeralStore w
    /\ exists record,
         last (history (persistentStore w')) = Some record
         /\ forall k u, TxUpdate k u ∈ ops record -> k = key r.
Proof.
  intros Hres.
  destruct (store_UpdateCursor_run res ts cursor w r Hres)
    as (w' & record & Hrun & Hhist & _ & Hops & Hcase & Htable & _).
  assert (Hkeys : forall k u, TxUpdate k u ∈ ops record -> k = key r).
  { intros k u Hin. destruct (internalInSync r); [|destruct Hops as [Hops|[Hops _]]];
      rewrite Hops in Hin;
      repeat (apply elem_of_cons in Hin as [Hin|Hin]; [by injection Hin|]);
      by inversion Hin. }
  assert (Hlast : last (history (persistentStore w')) = Some record)
    by (by rewrite Hhist, last_snoc).
  exists w'.
  destruct (outcome record) as [e|]; destruct Hcase as [Hheap _]; rewrite Hheap.
  - exists r. refine (conj Hrun (conj Hres _)). repeat split; try done. by exists record.
  - exists (set_stored true (set_internalInSync true r)).
    refine (conj Hrun (conj _ _)); [by rewrite !list_lookup_alter_eq, Hres|].
    repeat split; try done.
    + intros l Hne. by rewrite !list_lookup_alter_ne by done.
    + by exists record.
Qed.

Lemma store_UpdateCursor_frame_witness :
  exists w' r',
    store_UpdateCursor 0%nat {| sec := 63900000001%Z; nsec := 0%Z |}
      (Some (VMap [("offset", VInt 30)])) (sample_world []) = Some w'
    /\ heap w' !! 0%nat = Some r'
    /\ Cursor (state_ r') = Some (VMap [("offset", VInt 20)])
    /\ heap w' !! 1%nat = Some fresh_resource.
Proof.
  destruct (store_UpdateCursor_frame 0%nat {| sec := 63900000001%Z; nsec := 0%Z |}
              (Some (VMap [("offset", VInt 30)])) (sample_world []) sample_resource eq_refl)
    as (w' & r' & Hrun & Hheap & Hstate & _ & _ & _ & Hothers & _).
  exists w', r'. split; [exact Hrun|]. split; [exact Hheap|]. split.
  - by rewrite Hstate.
  - by rewrite Hothers.
Defined.

(** Neither [UpdateInternal] nor [UpdateCursor] ever clears [stored]: a
    resource known to be in the registry stays so, also when the write
    fails. *)
Theorem stored_never_cleared (res : loc) (w : world) (r : resource) :
  heap w !! res = Some r -> stored r = true ->
  (forall w', store_UpdateInternal res w = Some w' ->
              stored <$> heap w' !! res = Some true)
  /\ (forall ts cursor w', store_UpdateCursor res ts cursor w = Some w' ->
                           stored <$> heap w' !! res = Some true).
Proof.
  intros Hres Hstored. split.
  - intros w'. pose proof (store_UpdateInternal_live res w r Hres) as Hrun.
    cbn zeta in Hrun. destruct (Store_Update _ _) as [[e|] ps];
      rewrite Hrun; intros [= <-]; cbn;
      rewrite !list_lookup_alter_eq, Hres; cbn; by rewrite ?Hstored.
  - intros ts cursor w' Hw'.
    destruct (store_UpdateCursor_run res ts cursor w r Hres)
      as (w2 & record & Hrun & _ & _ & _ & Hcase & _).
    rewrite Hrun in Hw'. injection Hw' as <-.
    destruct (outcome record); destruct Hcase as [-> _].
    + by rewrite Hres; cbn; rewrite Hstored.
    + by rewrite !list_lookup_alter_eq, Hres.
Qed.

Lemma stored_never_cleared_witness :
  exists w',
    store_UpdateInternal 0%nat (sample_world [Some disk_full]) = Some w'
    /\ stored <$> heap w' !! 0%nat = Some true.
Proof.
  eexists. split; [reflexivity|].
  apply (proj1 (stored_never_cleared 0%nat (sample_world [Some disk_full])
                  sample_resource eq_refl eq_refl)).
  reflexivity.
Defined.



(** ** The ACK handler, continued *)

Lemma update_ops_fmap (l : list updateOp) : update_ops (PUpdateOp <$> l) = l.
Proof.
  unfold update_ops. induction l as [|op l IH]; [reflexivity|].
  cbn. by rewrite IH.
Qed.

(** The handler cannot panic on its own: the index it computes is in
    range and holds an update operation, so it fails only if [Execute]
    does.  Its result depends on the update operations of the batch only,
    not on the count [acked] nor on the other entries. *)
Theorem inputACKHandler_safe {W} (Execute : updateOp -> Z -> W -> option W)
    (acked acked' : Z) (private : list private_entry) (w : W) :
  (Z.of_nat (length private) < 2 ^ 64)%Z ->
  ((forall op n w0, is_Some (Execute op n w0)) ->
   is_Some (inputACKHandler Execute acked private w))
  /\ inputACKHandler Execute acked private w =
       inputACKHandler Execute acked' (PUpdateOp <$> update_ops private) w.
Proof.
  intros Hbound.
  assert (Hbound' : (Z.of_nat (length (PUpdateOp <$> update_ops private)) < 2 ^ 64)%Z).
  { rewrite length_fmap. pose proof (update_ops_length private). lia. }
  rewrite !inputACKHandler_last by assumption. rewrite update_ops_fmap.
  split; [|reflexivity].
  intros Htotal. destruct (last (update_ops private)); [apply Htotal | by eexists].
Qed.

Lemma inputACKHandler_safe_witness :
  inputACKHandler counting_Execute 6%Z sample_batch 0%Z = Some 3%Z
  /\ inputACKHandler counting_Execute 0%Z
       [PUpdateOp (op_at 10); PUpdateOp (op_at 20); PUpdateOp (op_at 30)] 0%Z = Some 3%Z.
Proof.
  assert (Hbound : (Z.of_nat (length sample_batch) < 2 ^ 64)%Z) by (cbn; lia).
  destruct (inputACKHandler_safe counting_Execute 6%Z 0%Z sample_batch 0%Z Hbound)
    as [_ Hsame].
  split; [reflexivity|]. exact (eq_trans (eq_sym Hsame) eq_refl).
Defined.
